(** * chunk-data: re-chunking of binary data

    A shallow embedding of [src/index.js] (the generators [chunk],
    [chunkFrom] and [chunkFromAsync]) and the properties its specification
    states about them.

    Modelling conventions.
    - A generator is run to completion by its consumer: its model returns
      the list of events it produced, in order, and how it ended (a value
      thrown, or the final values of its local variables).
    - The code never looks at the value of a byte, so the development is
      polymorphic in the type [A] of bytes; [zero] is the byte a fresh
      [Uint8Array] is filled with.  Instantiating [A] with labelled bytes
      gives the provenance of every byte moved.
    - Lengths and offsets are [nat].  In the source they are JavaScript
      numbers; every sum and difference computed on them either stays
      within the safe integers, where double arithmetic is exact, or is
      only compared with a typed-array length it exceeds either way.
    - [new Uint8Array(n)] throws a [RangeError] when the engine cannot
      allocate [n] bytes.  How much an engine allocates is not part of
      the source: it is the parameter [limit] of the model, the largest
      length a fresh [Uint8Array] can have, and every statement holds
      for every value of it.  Whether an allocation succeeds depends on
      the length asked for only; a run only ever asks for [chunkSize]
      bytes. *)

From Stdlib Require Import QArith Strings.Byte.
From stdpp Require Import base list strings.

Set Default Proof Using "Type".
Set Warnings "-register-all".

(** ** JavaScript values seen by the three functions *)

(** A JavaScript number: the validation of [chunkSize] tells apart
    [NaN], the infinities, and finite values that are or are not
    integers. *)
Inductive number :=
| NaN
| PosInfinity
| NegInfinity
| Finite (q : Q).

Definition MAX_SAFE_INTEGER : Z := 9007199254740991.

(** [Number.isSafeInteger] on a number. *)
Definition number_isSafeInteger (x : number) : bool :=
  match x with
  | Finite q =>
      Pos.eqb (Qden (Qred q)) 1
      && (Z.abs (Qnum (Qred q)) <=? MAX_SAFE_INTEGER)%Z
  | _ => false
  end.

(** [x <= 0] on a number. *)
Definition number_le_zero (x : number) : bool :=
  match x with
  | NaN => false
  | PosInfinity => false
  | NegInfinity => true
  | Finite q => Qle_bool q 0
  end.

(** The integer value of a number that passed [number_isSafeInteger]. *)
Definition number_to_nat (x : number) : nat :=
  match x with
  | Finite q => Z.to_nat (Qnum (Qred q))
  | _ => 0
  end.

(** An [ArrayBufferView] is a typed array, which is itself iterable and
    yields its elements as numbers, or a [DataView], which is not
    iterable.  The chunkers only use the byte span of a view. *)
Inductive view_kind :=
| TypedArray (elements : list number)
| DataView.

Section Values.
Context {A : Type}.

Inductive value :=
| VUndefined
| VNull
| VBoolean (b : bool)
| VNumber (x : number)
| VString (s : string)
| VObject                                 (* a plain object such as {} *)
| VView (k : view_kind) (bytes : list A)  (* a view and its byte span *)
| VIterable (items : list value)          (* an Array or a generator *)
| VAsyncIterable (items : list value)     (* an async generator, a stream *)
| VDualIterable (sync async : list value)
                                          (* an object with both
                                             [Symbol.iterator] and
                                             [Symbol.asyncIterator] *)
| VPromise (v : value).                   (* a promise fulfilled with [v] *)

(** [ArrayBuffer.isView(v)] *)
Definition ArrayBuffer_isView (v : value) : bool :=
  match v with
  | VView _ _ => true
  | _ => false
  end.

(** [toUint8Array(data)]: the byte span of a view.  The source calls it
    on views only. *)
Definition toUint8Array (data : value) : list A :=
  match data with
  | VView _ bytes => bytes
  | _ => []
  end.

(** [Number.isSafeInteger(v)]: false on everything but numbers. *)
Definition Number_isSafeInteger (v : value) : bool :=
  match v with
  | VNumber x => number_isSafeInteger x
  | _ => false
  end.

(** [!Number.isSafeInteger(chunkSize) || chunkSize <= 0]; the
    comparison is reached for safe integers only. *)
Definition invalid_chunkSize (chunkSize : value) : bool :=
  negb (Number_isSafeInteger chunkSize)
  || match chunkSize with
     | VNumber x => number_le_zero x
     | _ => false
     end.

Definition chunkSize_to_nat (chunkSize : value) : nat :=
  match chunkSize with
  | VNumber x => number_to_nat x
  | _ => 0
  end.

(** [typeof v === 'string'] *)
Definition typeof_string (v : value) : bool :=
  match v with
  | VString _ => true
  | _ => false
  end.

(** What iterating [v] through [v[Symbol.iterator]] yields; [None] when
    [typeof v?.[Symbol.iterator] !== 'function']. *)
Definition sync_items (v : value) : option (list value) :=
  match v with
  | VString s =>
      Some ((λ c, VString (String c EmptyString)) <$> String.list_ascii_of_string s)
  | VView (TypedArray elements) _ => Some (VNumber <$> elements)
  | VIterable items => Some items
  | VDualIterable sync _ => Some sync
  | _ => None
  end.

(** [typeof v?.[Symbol.iterator] === 'function'] *)
Definition has_iterator (v : value) : bool :=
  bool_decide (is_Some (sync_items v)).

(** What iterating [v] through [v[Symbol.asyncIterator]] yields. *)
Definition async_items (v : value) : option (list value) :=
  match v with
  | VAsyncIterable items => Some items
  | VDualIterable _ async => Some async
  | _ => None
  end.

(** [typeof v?.[Symbol.asyncIterator] === 'function'] *)
Definition has_async_iterator (v : value) : bool :=
  bool_decide (is_Some (async_items v)).

(** [await v] *)
Fixpoint await (v : value) : value :=
  match v with
  | VPromise w => await w
  | _ => v
  end.

(** The items bound to [part] by [for await (const part of v)]: the
    async iterator when there is one, otherwise the sync iterator with
    every item awaited. *)
Definition for_await_items (v : value) : option (list value) :=
  match async_items v with
  | Some items => Some items
  | None => fmap (M:=list) await <$> sync_items v
  end.
End Values.

Arguments value : clear implicits.

(** ** What the generators throw *)

Inductive thrown :=
| TypeError (message : string)
| RangeError             (* [TypedArray.prototype.set] out of bounds, or
                            a [Uint8Array] that cannot be allocated *)
| UndefinedProperty.     (* a method called on [undefined] *)

Definition msg_data : string := "Expected data to be ArrayBufferView".
Definition msg_chunkSize : string := "Expected chunkSize to be a positive integer".
Definition msg_iterable : string := "Expected iterable to be an Iterable<ArrayBufferView>".
Definition msg_async_iterable : string :=
  "Expected iterable to be an async iterable or iterable".
Definition msg_part : string :=
  "Expected iterable chunks to be Uint8Array or ArrayBufferView".

(** ** Views on an array of bytes *)

(** A [Uint8Array] obtained by [subarray]: a window on the bytes of the
    array it was taken from. *)
Record span := Span { span_begin : nat; span_size : nat }.

(** [u.subarray(b, e)] on an array of [len] bytes, for [b], [e] not
    negative: both ends are clamped to [len]. *)
Definition subarray (len b e : nat) : span :=
  Span (b `min` len) ((e `min` len) - (b `min` len)).

(** The bytes seen through a span of an array holding [bytes]. *)
Definition read_span {A} (bytes : list A) (s : span) : list A :=
  take (span_size s) (drop (span_begin s) bytes).

(** ** [chunk] *)

(** The loop [for (offset = 0; offset < length; offset += chunkSize)]. *)
Fixpoint chunk_loop (fuel len chunkSize offset : nat) : list span :=
  match fuel with
  | 0 => []
  | S fuel =>
      if offset <? len
      then subarray len offset (offset + chunkSize)
             :: chunk_loop fuel len chunkSize (offset + chunkSize)
      else []
  end.

(** [chunk(data, chunkSize)] run to completion: the views yielded and
    the value thrown, if any. *)
Definition chunk {A} (data chunkSize : value A) : list span * option thrown :=
  if negb (ArrayBuffer_isView data) then ([], Some (TypeError msg_data))
  else if invalid_chunkSize chunkSize then ([], Some (TypeError msg_chunkSize))
  else
    let uint8Array := toUint8Array data in
    (chunk_loop (length uint8Array) (length uint8Array)
       (chunkSize_to_nat chunkSize) 0, None).

(** ** The carry-buffer re-chunker *)

(** The arrays a chunk or a copy refers to: the [i]-th item pulled from
    the source, the carry buffer, or a fresh [out] array. *)
Inductive array_name :=
| Input (i : nat)
| CarryBuffer
| Out.

Section Rechunk.
Context {A : Type} (zero : A) (limit : nat).

(** A chunk as yielded: a view on the [i]-th item pulled, a fresh array
    owning its bytes, or a view on the carry buffer. *)
Inductive chunk_ref :=
| InputSlice (i : nat) (s : span)
| Owned (bytes : list A)
| CarrySlice (s : span).

(** What a run does, in order: chunks yielded, and bytes copied by
    [TypedArray.prototype.set] with the array read and the one written. *)
Inductive event :=
| Yield (c : chunk_ref)
| Copy (src dst : array_name) (data : list A).

(** The local variables that live across the loop. *)
Record carry_state := CarryState {
  carryBuffer : option (list A);   (* [None] is [undefined] *)
  carryLength : nat
}.

(** A generator body: the events so far, then a thrown value or a
    result. *)
Definition gen (X : Type) : Type := list event * (thrown + X).

#[global] Instance gen_ret : MRet gen := λ X x, ([], inr x).
#[global] Instance gen_bind : MBind gen := λ X Y f m,
  match m with
  | (evs, inl e) => (evs, inl e)
  | (evs, inr x) => let '(evs', r) := f x in (evs ++ evs', r)
  end.

Definition throw {X} (e : thrown) : gen X := ([], inl e).
Definition emit (ev : event) : gen unit := ([ev], inr ()).

(** [new Uint8Array(n)]: [n] zero bytes, or a [RangeError] when [n]
    bytes cannot be allocated. *)
Definition new_Uint8Array (n : nat) : gen (list A) :=
  if limit <? n then throw RangeError else mret (replicate n zero).

(** [target.set(source, offset)] where [source] is a view of the array
    [src]: a [RangeError] unless the source fits, otherwise the bytes
    are copied.  The result is the new content of [target]. *)
Definition typed_set (dst src : array_name) (target source : list A)
    (offset : nat) : gen (list A) :=
  if length target <? offset + length source then throw RangeError
  else
    emit (Copy src dst source);;
    mret (take offset target ++ source
            ++ drop (offset + length source) target).

(** Reading [carryBuffer] to call a method on it. *)
Definition defined (b : option (list A)) : gen (list A) :=
  match b with
  | Some bytes => mret bytes
  | None => throw UndefinedProperty
  end.

(** [for (; offset + chunkSize <= buffer.length; offset += chunkSize)
    yield buffer.subarray(offset, offset + chunkSize)], for the [i]-th
    item; the result is the final [offset]. *)
Fixpoint direct_slices (fuel chunkSize i len offset : nat) : gen nat :=
  match fuel with
  | 0 => mret offset
  | S fuel =>
      if offset + chunkSize <=? len then
        emit (Yield (InputSlice i (subarray len offset (offset + chunkSize))));;
        direct_slices fuel chunkSize i len (offset + chunkSize)
      else mret offset
  end.

(** Lines 67-79: the direct slices, then the remainder saved in the
    carry buffer. *)
Definition slices_and_remainder (chunkSize i : nat) (buffer : list A)
    (st : carry_state) (offset : nat) : gen carry_state :=
  offset ← direct_slices (length buffer) chunkSize i (length buffer) offset;
  if offset <? length buffer then
    carryBuffer ← match carryBuffer st with
                  | Some b => mret b
                  | None => new_Uint8Array chunkSize
                  end;
    let remainder := length buffer - offset in
    carryBuffer ← typed_set CarryBuffer (Input i) carryBuffer
                    (drop offset buffer) 0;
    mret (CarryState (Some carryBuffer) remainder)
  else mret st.

(** The body of [for (const part of iterable)] for the [i]-th item.
    [needed] is a difference of naturals: [carryLength < chunkSize] in
    every state a run reaches ([process_parts_outcome]), so it is the
    difference the source computes. *)
Definition process_part (chunkSize i : nat) (part : value A)
    (st : carry_state) : gen carry_state :=
  if negb (ArrayBuffer_isView part) then throw (TypeError msg_part)
  else
    let buffer := toUint8Array part in
    if length buffer =? 0 then mret st
    else if 0 <? carryLength st then
      let needed := chunkSize - carryLength st in
      if needed <=? length buffer then
        out ← new_Uint8Array chunkSize;
        carry ← defined (carryBuffer st);
        out ← typed_set Out CarryBuffer out
                (read_span carry (subarray (length carry) 0 (carryLength st))) 0;
        out ← typed_set Out (Input i) out
                (read_span buffer (subarray (length buffer) 0 needed))
                (carryLength st);
        emit (Yield (Owned out));;
        slices_and_remainder chunkSize i buffer
          (CarryState (carryBuffer st) 0) needed
      else
        carry ← defined (carryBuffer st);
        carry ← typed_set CarryBuffer (Input i) carry buffer (carryLength st);
        mret (CarryState (Some carry) (carryLength st + length buffer))
    else slices_and_remainder chunkSize i buffer st 0.

(** The loop over the items pulled, [i] being the index of the next. *)
Fixpoint process_parts (chunkSize i : nat) (parts : list (value A))
    (st : carry_state) : gen carry_state :=
  match parts with
  | [] => mret st
  | part :: parts =>
      st ← process_part chunkSize i part st;
      process_parts chunkSize (S i) parts st
  end.

(** Lines 82-84: the final, short chunk. *)
Definition flush (st : carry_state) : gen carry_state :=
  if 0 <? carryLength st then
    carry ← defined (carryBuffer st);
    emit (Yield (CarrySlice (subarray (length carry) 0 (carryLength st))));;
    mret st
  else mret st.

Definition initial : carry_state := CarryState None 0.

(** [chunkFrom(iterable, chunkSize)] run to completion. *)
Definition chunkFrom (iterable chunkSize : value A) : gen carry_state :=
  if negb (has_iterator iterable) || typeof_string iterable
  then throw (TypeError msg_iterable)
  else if invalid_chunkSize chunkSize then throw (TypeError msg_chunkSize)
  else
    st ← process_parts (chunkSize_to_nat chunkSize) 0
           (default [] (sync_items iterable)) initial;
    flush st.

(** *** [chunkFromAsync]

    The source repeats the body of [chunkFrom] in an async generator;
    so does the model, definition by definition. *)

Fixpoint async_direct_slices (fuel chunkSize i len offset : nat) : gen nat :=
  match fuel with
  | 0 => mret offset
  | S fuel =>
      if offset + chunkSize <=? len then
        emit (Yield (InputSlice i (subarray len offset (offset + chunkSize))));;
        async_direct_slices fuel chunkSize i len (offset + chunkSize)
      else mret offset
  end.

Definition async_slices_and_remainder (chunkSize i : nat) (buffer : list A)
    (st : carry_state) (offset : nat) : gen carry_state :=
  offset ← async_direct_slices (length buffer) chunkSize i (length buffer) offset;
  if offset <? length buffer then
    carryBuffer ← match carryBuffer st with
                  | Some b => mret b
                  | None => new_Uint8Array chunkSize
                  end;
    let remainder := length buffer - offset in
    carryBuffer ← typed_set CarryBuffer (Input i) carryBuffer
                    (drop offset buffer) 0;
    mret (CarryState (Some carryBuffer) remainder)
  else mret st.

Definition async_process_part (chunkSize i : nat) (part : value A)
    (st : carry_state) : gen carry_state :=
  if negb (ArrayBuffer_isView part) then throw (TypeError msg_part)
  else
    let buffer := toUint8Array part in
    if length buffer =? 0 then mret st
    else if 0 <? carryLength st then
      let needed := chunkSize - carryLength st in
      if needed <=? length buffer then
        out ← new_Uint8Array chunkSize;
        carry ← defined (carryBuffer st);
        out ← typed_set Out CarryBuffer out
                (read_span carry (subarray (length carry) 0 (carryLength st))) 0;
        out ← typed_set Out (Input i) out
                (read_span buffer (subarray (length buffer) 0 needed))
                (carryLength st);
        emit (Yield (Owned out));;
        async_slices_and_remainder chunkSize i buffer
          (CarryState (carryBuffer st) 0) needed
      else
        carry ← defined (carryBuffer st);
        carry ← typed_set CarryBuffer (Input i) carry buffer (carryLength st);
        mret (CarryState (Some carry) (carryLength st + length buffer))
    else async_slices_and_remainder chunkSize i buffer st 0.

Fixpoint async_process_parts (chunkSize i : nat) (parts : list (value A))
    (st : carry_state) : gen carry_state :=
  match parts with
  | [] => mret st
  | part :: parts =>
      st ← async_process_part chunkSize i part st;
      async_process_parts chunkSize (S i) parts st
  end.

Definition async_flush (st : carry_state) : gen carry_state :=
  if 0 <? carryLength st then
    carry ← defined (carryBuffer st);
    emit (Yield (CarrySlice (subarray (length carry) 0 (carryLength st))));;
    mret st
  else mret st.

(** [chunkFromAsync(iterable, chunkSize)] drained by its consumer: what
    it yielded and how the iteration ended (rejected or done). *)
Definition chunkFromAsync (iterable chunkSize : value A) : gen carry_state :=
  if negb (has_async_iterator iterable) && negb (has_iterator iterable)
  then throw (TypeError msg_async_iterable)
  else if invalid_chunkSize chunkSize then throw (TypeError msg_chunkSize)
  else
    st ← async_process_parts (chunkSize_to_nat chunkSize) 0
           (default [] (for_await_items iterable)) initial;
    async_flush st.

(** *** Consuming the chunks *)

(** The chunks yielded, in order. *)
Definition yields (evs : list event) : list chunk_ref :=
  omap (λ ev, match ev with Yield c => Some c | _ => None end) evs.

(** The bytes a consumer reads through a chunk, when the pulled items
    hold [units] and the carry buffer holds [carry]. *)
Definition chunk_bytes (units : list (list A)) (carry : list A)
    (c : chunk_ref) : list A :=
  match c with
  | InputSlice i s => read_span (default [] (units !! i)) s
  | Owned bytes => bytes
  | CarrySlice s => read_span carry s
  end.

(** The carry buffer a run leaves behind. *)
Definition final_carry (r : gen carry_state) : list A :=
  match r.2 with
  | inr st => default [] (carryBuffer st)
  | inl _ => []
  end.

(** The byte contents of the chunks of a run over the items [parts],
    read once the run is over (as [Array.from] or a [for] loop that
    collects the chunks does). *)
Definition collect (parts : list (value A)) (r : gen carry_state)
    : list (list A) :=
  chunk_bytes (toUint8Array <$> parts) (final_carry r) <$> yields r.1.

(** The bytes [TypedArray.prototype.set] moved during a run, by the
    array they were read from. *)
Definition copied_from_input (evs : list event) : list A :=
  mjoin (omap (λ ev, match ev with
                     | Copy (Input _) _ data => Some data
                     | _ => None
                     end) evs).

Definition copied_from_carry (evs : list event) : list A :=
  mjoin (omap (λ ev, match ev with
                     | Copy CarryBuffer _ data => Some data
                     | _ => None
                     end) evs).

Definition copied (evs : list event) : list A :=
  mjoin (omap (λ ev, match ev with
                     | Copy _ _ data => Some data
                     | _ => None
                     end) evs).
End Rechunk.

(** ** Vocabulary of the specification *)

Section Vocabulary.
Context {A : Type}.
Implicit Types (p b r : list A) (st : carry_state (A:=A)).

(** A valid input unit. *)
Definition is_view (v : value A) : Prop := ArrayBuffer_isView v = true.

(** [v] is the number [n], a positive safe integer. *)
Definition is_chunkSize (v : value A) (n : nat) : Prop :=
  ∃ q, v = VNumber (Finite q) ∧ (q == inject_Z (Z.of_nat n))%Q
       ∧ 0 < n ∧ (Z.of_nat n ≤ MAX_SAFE_INTEGER)%Z.

(** [v] is a positive integer within the safe-integer range. *)
Definition positive_safe_integer (v : value A) : Prop :=
  ∃ n, is_chunkSize v n.

(** A source [chunkFrom] iterates, and the items it yields. *)
Definition sync_source (iterable : value A) (parts : list (value A)) : Prop :=
  sync_items iterable = Some parts ∧ typeof_string iterable = false.

(** A source [chunkFromAsync] iterates, and the items it yields. *)
Definition async_source (iterable : value A) (parts : list (value A)) : Prop :=
  for_await_items iterable = Some parts.

(** The state holds the pending bytes [p]: they are the first
    [carryLength] bytes of a carry buffer of [chunkSize] bytes, and fewer
    than [chunkSize]. *)
Definition carry_holds (chunkSize : nat) st p : Prop :=
  carryLength st = length p ∧ length p < chunkSize ∧
  match carryBuffer st with
  | Some cb => length cb = chunkSize ∧ take (length p) cb = p
  | None => p = []
  end.

(** *** A run told on the pending bytes

    What the body of the loop does to the [i]-th item holding [b] when
    [p] is pending, without the arrays: the events, and the bytes pending
    afterwards.  [process_part_summary] proves that the code does this. *)

(** [n] direct slices of the [i]-th item from [offset] on. *)
Definition slices (chunkSize i offset n : nat) : list (event (A:=A)) :=
  (λ m, Yield (InputSlice i (Span (offset + m * chunkSize) chunkSize)))
    <$> seq 0 n.

(** The remainder [r] of the [i]-th item saved in the carry buffer. *)
Definition save (i : nat) r : list (event (A:=A)) :=
  match r with
  | [] => []
  | _ => [Copy (Input i) CarryBuffer r]
  end.

Definition part_summary (chunkSize i : nat) p b
    : list (event (A:=A)) * list A :=
  match b, p with
  | [], _ => ([], p)
  | _, [] =>
      let n := length b / chunkSize in
      let r := drop (n * chunkSize) b in
      (slices chunkSize i 0 n ++ save i r, r)
  | _, _ =>
      let needed := chunkSize - length p in
      if needed <=? length b then
        let n := (length b - needed) / chunkSize in
        let r := drop (needed + n * chunkSize) b in
        ([Copy CarryBuffer Out p; Copy (Input i) Out (take needed b);
          Yield (Owned (p ++ take needed b))]
           ++ slices chunkSize i needed n ++ save i r, r)
      else ([Copy (Input i) CarryBuffer b], p ++ b)
  end.

Fixpoint run_summary (chunkSize i : nat) p (units : list (list A))
    : list (event (A:=A)) * list A :=
  match units with
  | [] => ([], p)
  | b :: units =>
      let part := part_summary chunkSize i p b in
      let rest := run_summary chunkSize (S i) part.2 units in
      (part.1 ++ rest.1, rest.2)
  end.

(** *** A run that cannot allocate

    When [chunkSize] bytes cannot be allocated there is no carry buffer.
    A unit whose length is a multiple of [chunkSize] is yielded through
    direct slices; the first unit that leaves a remainder ends the run,
    after its direct slices.  The events, and whether every unit was
    pulled.  [process_parts_starved] proves that the code does this. *)
Fixpoint starved_summary (chunkSize i : nat) (units : list (list A))
    : list (event (A:=A)) * bool :=
  match units with
  | [] => ([], true)
  | b :: units =>
      let evs := slices chunkSize i 0 (length b / chunkSize) in
      if length b mod chunkSize =? 0 then
        let rest := starved_summary chunkSize (S i) units in
        (evs ++ rest.1, rest.2)
      else (evs, false)
  end.

(** An item whose bytes are whole chunks: it leaves no remainder when no
    byte is pending. *)
Definition aligned (chunkSize : nat) (v : value A) : Prop :=
  length (toUint8Array v) mod chunkSize = 0.

(** The run ends on a failed allocation: [chunkSize] bytes are more than
    [limit], and a view that leaves a remainder is pulled with only views
    before it. *)
Definition allocation_fails (limit chunkSize : nat) (parts : list (value A))
    : Prop :=
  limit < chunkSize
  ∧ ∃ pre u rest, parts = pre ++ u :: rest
      ∧ Forall is_view pre ∧ is_view u ∧ ¬ aligned chunkSize u.

(** A direct slice of an input unit is yielded. *)
Definition slice_event (ev : event (A:=A)) : Prop :=
  ∃ i s, ev = Yield (InputSlice i s).

(** The final chunk, when [p] is pending at the end. *)
Definition last_chunk p : list (event (A:=A)) :=
  match p with
  | [] => []
  | _ => [Yield (CarrySlice (Span 0 (length p)))]
  end.

(** *** Chunks as lists of bytes *)

(** The bytes of the chunks yielded among [evs]. *)
Definition bytes_of (units : list (list A)) (carry : list A)
    (evs : list (event (A:=A))) : list (list A) :=
  chunk_bytes units carry <$> yields evs.

(** The bytes yielded through direct slices of the input units. *)
Definition sliced (units : list (list A)) (evs : list (event (A:=A))) : list A :=
  mjoin (omap (λ ev, match ev with
                     | Yield (InputSlice i s) =>
                         Some (read_span (default [] (units !! i)) s)
                     | _ => None
                     end) evs).

(** The bytes copied from an input unit into the carry buffer. *)
Definition copied_to_carry (evs : list (event (A:=A))) : list A :=
  mjoin (omap (λ ev, match ev with
                     | Copy (Input _) CarryBuffer data => Some data
                     | _ => None
                     end) evs).

(** [n] consecutive windows of [chunkSize] bytes of [b] from [offset] on. *)
Definition windows (chunkSize offset n : nat) b : list (list A) :=
  (λ m, take chunkSize (drop (offset + m * chunkSize) b)) <$> seq 0 n.

Definition tail_chunk r : list (list A) :=
  match r with
  | [] => []
  | _ => [r]
  end.

(** [chunks] and [r] cut [l] into pieces of [chunkSize] bytes and a
    shorter rest. *)
Definition chunking (chunkSize : nat) (l : list A)
    (chunks : list (list A)) r : Prop :=
  mjoin chunks ++ r = l
  ∧ Forall (λ c, length c = chunkSize) chunks
  ∧ length r < chunkSize.

(** *** Where a chunk lies in the input *)

(** The position, in the stream of all input bytes, of the first byte of
    the [i]-th unit. *)
Definition unit_start (units : list (list A)) (i : nat) : nat :=
  length (mjoin (take i units)).

(** A chunk whose first byte is at position [pos] of the stream is either
    a window of [chunkSize] bytes on the unit holding that position, or a
    fresh array of [chunkSize] bytes with the start of some unit strictly
    inside. *)
Definition located (chunkSize : nat) (units : list (list A)) (pos : nat)
    (c : chunk_ref (A:=A)) : Prop :=
  match c with
  | InputSlice i s =>
      ∃ b, units !! i = Some b ∧ span_size s = chunkSize
           ∧ span_begin s + chunkSize ≤ length b
           ∧ pos = unit_start units i + span_begin s
  | Owned bytes =>
      length bytes = chunkSize
      ∧ ∃ i, pos < unit_start units i < pos + chunkSize
  | CarrySlice _ => False
  end.
End Vocabulary.

(** ** Relabelling bytes *)

(** The code moves bytes without looking at them: a run on relabelled
    bytes is the relabelled run ([relabelled_run]).  Labelling every byte
    of the input with its position makes the bytes pairwise distinct, so
    that the copy log tells where every copied byte came from. *)
Definition chunk_ref_map {A B} (f : A → B) (c : chunk_ref (A:=A))
    : chunk_ref (A:=B) :=
  match c with
  | InputSlice i s => InputSlice i s
  | Owned bytes => Owned (f <$> bytes)
  | CarrySlice s => CarrySlice s
  end.

Definition event_map {A B} (f : A → B) (ev : event (A:=A)) : event (A:=B) :=
  match ev with
  | Yield c => Yield (chunk_ref_map f c)
  | Copy src dst data => Copy src dst (f <$> data)
  end.

(** ** Concrete values *)

(** The number a [Uint8Array] yields for one of its bytes. *)
Definition byte_number (b : byte) : number :=
  Finite (inject_Z (Z.of_N (Byte.to_N b))).

(** [new Uint8Array([...])] *)
Definition Uint8Array (bytes : list byte) : value byte :=
  VView (TypedArray (byte_number <$> bytes)) bytes.

(** An integer literal. *)
Definition num (z : Z) : value byte := VNumber (Finite (inject_Z z)).

(** [new Uint8Array(n)], as a value. *)
Definition zeros (n : nat) : value byte := Uint8Array (replicate n Byte.x00).

(** The engine the examples run on allocates arrays of up to 4096
    bytes. *)
Definition example_limit : nat := 4096.

(** The lengths of the chunks a run of [chunkFrom] yields. *)
Definition chunk_lengths (parts : list (value byte)) (chunkSize : Z) : list nat :=
  length <$> collect parts
               (chunkFrom Byte.x00 example_limit (VIterable parts) (num chunkSize)).

#[global] Instance byte_eq_decision : EqDecision byte := Byte.byte_eq_dec.

(** Two input units used in the examples: three bytes, then two. *)
Definition two_units : list (value byte) :=
  [Uint8Array [x01; x02; x03]; Uint8Array [x04; x05]]%byte.

(** ** Further vocabulary *)

Section Further.
Context {A : Type}.

(** The fresh arrays yielded among [evs]: the merged chunks. *)
Definition merged (evs : list (event (A:=A))) : list (list A) :=
  omap (λ ev, match ev with
              | Yield (Owned bytes) => Some bytes
              | _ => None
              end) evs.

(** A chunk that is a window on an input unit. *)
Definition is_input_slice (c : chunk_ref (A:=A)) : Prop :=
  ∃ i s, c = InputSlice i s.
End Further.

(** ** The model does what the summary says *)

Section Lemmas.
Context {A : Type} (zero : A) (limit : nat).
Implicit Types (p b r : list A) (st : carry_state (A:=A)).
#[local] Abbreviation gen := (gen (A:=A)).
#[local] Abbreviation slices := (slices (A:=A)).
#[local] Abbreviation event := (event (A:=A)).
#[local] Abbreviation yields := (yields (A:=A)).
#[local] Abbreviation bytes_of := (bytes_of (A:=A)).
#[local] Abbreviation slice_event := (slice_event (A:=A)).
#[local] Abbreviation starved_summary := (starved_summary (A:=A)).

Lemma Qred_inject_Z z : Qred (inject_Z z) = inject_Z z.
Proof.
  unfold Qred, inject_Z.
  pose proof (Z.ggcd_gcd z 1) as Hgcd.
  pose proof (Z.ggcd_correct_divisors z 1) as Hdiv.
  destruct (Z.ggcd z 1) as (g & aa & bb). simpl in Hgcd.
  rewrite Z.gcd_1_r in Hgcd. subst g. destruct Hdiv as [Haa Hbb].
  rewrite !Z.mul_1_l in *. by subst.
Qed.

Lemma Qred_integer q z : (q == inject_Z z)%Q → Qred q = inject_Z z.
Proof. intros Heq. rewrite (Qred_complete _ _ Heq). apply Qred_inject_Z. Qed.

Lemma integer_Qred q :
  Qden (Qred q) = 1%positive → (q == inject_Z (Qnum (Qred q)))%Q.
Proof.
  intros Hden. rewrite <- (Qred_correct q) at 1.
  destruct (Qred q) as [num den]. simpl in *. by subst.
Qed.

Lemma is_chunkSize_valid (v : value A) n :
  is_chunkSize v n →
  invalid_chunkSize v = false ∧ chunkSize_to_nat v = n.
Proof.
  intros (q & -> & Heq & Hpos & Hmax).
  unfold invalid_chunkSize, chunkSize_to_nat. simpl.
  rewrite (Qred_integer _ _ Heq). simpl. split; [|lia].
  apply orb_false_iff. split.
  - apply negb_false_iff, Z.leb_le. lia.
  - apply not_true_is_false. intros Hle%Qle_bool_iff.
    rewrite Heq in Hle. unfold Qle in Hle. simpl in Hle. lia.
Qed.

Lemma valid_is_chunkSize (v : value A) :
  invalid_chunkSize v = false → is_chunkSize v (chunkSize_to_nat v).
Proof.
  unfold invalid_chunkSize. intros [Hsafe Hle]%orb_false_iff.
  apply negb_false_iff in Hsafe.
  destruct v as [| | |x| | | | | | |]; try done.
  destruct x as [| | |q]; try done.
  cbn [Number_isSafeInteger number_isSafeInteger number_le_zero
       chunkSize_to_nat number_to_nat] in *.
  apply andb_true_iff in Hsafe as [Hden%Pos.eqb_eq Hmax%Z.leb_le].
  pose proof (integer_Qred q Hden) as Heq.
  assert (0 < Qnum (Qred q))%Z as Hpos.
  { apply Z.nle_gt. intros Hneg. apply not_true_iff_false in Hle. apply Hle.
    apply Qle_bool_iff. rewrite Heq. unfold Qle. simpl. lia. }
  exists q. split; [done|]. rewrite Z2Nat.id by lia.
  split; [done|]. split; lia.
Qed.

Lemma typed_set_fits dst src (target source : list A) offset :
  offset + length source ≤ length target →
  typed_set dst src target source offset
  = ([Copy src dst source],
     inr (take offset target ++ source ++ drop (offset + length source) target)).
Proof.
  intros Hfit. unfold typed_set.
  destruct (Nat.ltb_spec (length target) (offset + length source)); [lia|done].
Qed.

Lemma slices_S chunkSize i offset n :
  slices chunkSize i offset (S n)
  = Yield (InputSlice i (Span offset chunkSize))
      :: slices chunkSize i (offset + chunkSize) n.
Proof.
  unfold slices. rewrite <- cons_seq, fmap_cons, <- fmap_S_seq, <- list_fmap_compose.
  f_equal; [do 3 f_equal; lia|].
  apply list_fmap_ext. intros _ m _. simpl. do 3 f_equal. lia.
Qed.

Lemma direct_slices_spec fuel chunkSize i len offset n :
  0 < chunkSize →
  offset + n * chunkSize ≤ len < offset + S n * chunkSize →
  n ≤ fuel →
  direct_slices fuel chunkSize i len offset
  = (slices chunkSize i offset n, inr (offset + n * chunkSize)).
Proof.
  intros Hcs. revert offset n.
  induction fuel as [|fuel IH]; intros offset n Hn Hfuel.
  - assert (n = 0) as -> by lia. simpl. unfold mret, gen_ret. do 2 f_equal. lia.
  - simpl. destruct (Nat.leb_spec (offset + chunkSize) len) as [Hle|Hgt].
    + destruct n as [|n]; [lia|].
      rewrite (IH (offset + chunkSize) n) by lia.
      simpl. rewrite slices_S. unfold subarray.
      rewrite !Nat.min_l by lia.
      replace (offset + chunkSize - offset) with chunkSize by lia.
      replace (offset + chunkSize + n * chunkSize)
        with (offset + S n * chunkSize) by lia.
      done.
    + assert (n = 0) as -> by nia. unfold mret, gen_ret. simpl. do 2 f_equal; lia.
Qed.

Lemma div_bounds a c : 0 < c → a / c * c ≤ a < S (a / c) * c.
Proof.
  intros Hc. pose proof (Nat.div_mod_eq a c).
  pose proof (Nat.mod_upper_bound a c). nia.
Qed.

Lemma new_Uint8Array_fits n :
  n ≤ limit → new_Uint8Array zero limit n = ([], inr (replicate n zero)).
Proof.
  intros Hfit. unfold new_Uint8Array.
  destruct (Nat.ltb_spec limit n); [lia|done].
Qed.

Lemma new_Uint8Array_fails n :
  limit < n → new_Uint8Array zero limit n = ([], inl RangeError).
Proof.
  intros Hbig. unfold new_Uint8Array.
  destruct (Nat.ltb_spec limit n); [done|lia].
Qed.

Lemma slices_and_remainder_spec chunkSize i b st offset :
  0 < chunkSize → chunkSize ≤ limit → offset ≤ length b →
  carry_holds chunkSize st [] →
  let n := (length b - offset) / chunkSize in
  let r := drop (offset + n * chunkSize) b in
  ∃ st', slices_and_remainder zero limit chunkSize i b st offset
         = (slices chunkSize i offset n ++ save i r, inr st')
       ∧ carry_holds chunkSize st' r.
Proof.
  intros Hcs Hlim Hoff (Hlen & _ & Hbuf) n r. unfold slices_and_remainder.
  pose proof (div_bounds (length b - offset) chunkSize Hcs) as Hn.
  fold n in Hn.
  rewrite (direct_slices_spec _ _ _ _ _ n) by (try done; nia).
  assert (length r = length b - (offset + n * chunkSize)) as Hr
    by (unfold r; by rewrite length_drop).
  cbn [mbind gen_bind].
  destruct (Nat.ltb_spec (offset + n * chunkSize) (length b)) as [Hlt|Hge].
  - assert (∃ cb, match carryBuffer st with
                  | Some b0 => mret b0
                  | None => new_Uint8Array zero limit chunkSize
                  end = ([], inr cb) ∧ length cb = chunkSize)
      as (cb & -> & Hcb).
    { destruct (carryBuffer st) as [cb0|].
      - exists cb0. split; [done|tauto].
      - rewrite new_Uint8Array_fits by done. eexists. split; [done|].
        apply length_replicate. }
    fold r. cbn [mbind gen_bind].
    rewrite typed_set_fits by (rewrite Hcb; simpl in *; lia).
    simpl. eexists. split.
    + f_equal. f_equal. unfold save. destruct r; [simpl in *; lia|done].
    + split; [simpl; lia|]. split; [simpl in *; lia|]. simpl. split.
      * rewrite length_app, length_drop. lia.
      * by rewrite take_app_length.
  - assert (r = []) as Hnil by (apply nil_length_inv; lia).
    exists st. rewrite Hnil. simpl. split; [done|].
    split; [done|]. split; [simpl; lia|]. destruct (carryBuffer st); [|done].
    split; [tauto|]. by rewrite take_0.
Qed.

Lemma part_summary_nil chunkSize i p : part_summary chunkSize i p [] = ([], p).
Proof. done. Qed.

Lemma part_summary_direct chunkSize i b :
  b ≠ [] →
  part_summary chunkSize i [] b
  = (slices chunkSize i 0 (length b / chunkSize)
       ++ save i (drop (length b / chunkSize * chunkSize) b),
     drop (length b / chunkSize * chunkSize) b).
Proof. by destruct b. Qed.

Lemma part_summary_merge chunkSize i p b :
  b ≠ [] → p ≠ [] → chunkSize - length p ≤ length b →
  let needed := chunkSize - length p in
  let n := (length b - needed) / chunkSize in
  part_summary chunkSize i p b
  = ([Copy CarryBuffer Out p; Copy (Input i) Out (take needed b);
      Yield (Owned (p ++ take needed b))]
       ++ slices chunkSize i needed n
       ++ save i (drop (needed + n * chunkSize) b),
     drop (needed + n * chunkSize) b).
Proof.
  intros Hb Hp Hle. destruct b; [done|]. destruct p; [done|].
  unfold part_summary. by rewrite (proj2 (Nat.leb_le _ _) Hle).
Qed.

Lemma part_summary_accumulate chunkSize i p b :
  b ≠ [] → p ≠ [] → length b < chunkSize - length p →
  part_summary chunkSize i p b = ([Copy (Input i) CarryBuffer b], p ++ b).
Proof.
  intros Hb Hp Hlt. destruct b; [done|]. destruct p; [done|].
  unfold part_summary. by rewrite (proj2 (Nat.leb_gt _ _) Hlt).
Qed.

Lemma read_span_prefix (l : list A) n :
  read_span l (subarray (length l) 0 n) = take n l.
Proof.
  unfold read_span, subarray. simpl. rewrite Nat.sub_0_r.
  destruct (Nat.le_ge_cases n (length l)).
  - by rewrite Nat.min_l.
  - rewrite Nat.min_r by done. by rewrite !take_ge.
Qed.

Lemma process_part_summary chunkSize i k b st p :
  0 < chunkSize → chunkSize ≤ limit → carry_holds chunkSize st p →
  ∃ st', process_part zero limit chunkSize i (VView k b) st
         = ((part_summary chunkSize i p b).1, inr st')
       ∧ carry_holds chunkSize st' (part_summary chunkSize i p b).2.
Proof.
  intros Hcs Hlim Hst. unfold process_part.
  cbn [ArrayBuffer_isView negb toUint8Array].
  destruct (Nat.eqb_spec (length b) 0) as [Hnil|Hne].
  { apply nil_length_inv in Hnil as ->. by exists st. }
  assert (b ≠ []) as Hb by (by intros ->).
  pose proof Hst as (Hlen & Hlt & Hbuf). rewrite Hlen.
  destruct (Nat.ltb_spec 0 (length p)) as [Hpos|Hzero].
  - assert (p ≠ []) as Hp by (intros ->; simpl in Hpos; lia).
    destruct (carryBuffer st) as [cb|] eqn:Hcb; [|done].
    destruct Hbuf as [Hcap Htake].
    destruct (Nat.leb_spec (chunkSize - length p) (length b)) as [Hle|Hgt].
    + rewrite part_summary_merge by done.
      rewrite new_Uint8Array_fits by done.
      cbn [defined mbind gen_bind mret gen_ret].
      rewrite !read_span_prefix, Htake.
      destruct (slices_and_remainder_spec chunkSize i b
                  (CarryState (Some cb) 0) (chunkSize - length p))
        as (st' & Hrun & Hst'); [done|done|lia| |].
      { split; [done|]. split; [simpl; lia|]. by simpl. }
      exists st'. split; [|done].
      rewrite typed_set_fits by (rewrite length_replicate; lia).
      cbn [mbind gen_bind].
      rewrite typed_set_fits.
      2:{ rewrite !length_app, length_take, length_drop.
          rewrite length_replicate, length_take. lia. }
      rewrite Hrun. cbn [emit mbind gen_bind fst snd app].
      do 2 f_equal. f_equal. do 3 f_equal.
      rewrite take_0. cbn [app Nat.add].
      rewrite take_app_length. f_equal.
      rewrite (nil_length_inv (drop _ _)); [by rewrite app_nil_r|].
      rewrite !length_drop, length_app, length_drop, length_take.
      rewrite length_replicate. lia.
    + rewrite part_summary_accumulate by (done || lia).
      cbn [defined mbind gen_bind mret gen_ret].
      rewrite typed_set_fits by lia.
      eexists. split; [done|]. cbn [fst snd].
      split; [cbn; by rewrite length_app|]. split; [rewrite length_app; lia|].
      cbn [carryBuffer]. rewrite Htake. split.
      * rewrite !length_app, length_drop. lia.
      * rewrite app_assoc. by rewrite take_app_length.
  - assert (p = []) as -> by (apply nil_length_inv; lia).
    rewrite part_summary_direct by done.
    destruct (slices_and_remainder_spec chunkSize i b st 0)
      as (st' & Hrun & Hst'); [done|done|lia|done|].
    rewrite Nat.sub_0_r in Hrun, Hst'. cbn [Nat.add] in Hrun, Hst'.
    exists st'. by rewrite Hrun.
Qed.

Lemma is_view_inv (v : value A) : is_view v → ∃ k b, v = VView k b.
Proof. destruct v; try done. eauto. Qed.

Lemma carry_holds_initial n : 0 < n → carry_holds (A:=A) n initial [].
Proof. intros Hn. split; [done|]. split; [simpl; lia|done]. Qed.

Lemma process_parts_summary chunkSize parts : ∀ i st p,
  0 < chunkSize → chunkSize ≤ limit →
  Forall is_view parts → carry_holds chunkSize st p →
  let run := run_summary chunkSize i p (toUint8Array <$> parts) in
  ∃ st', process_parts zero limit chunkSize i parts st = (run.1, inr st')
       ∧ carry_holds chunkSize st' run.2.
Proof.
  induction parts as [|part parts IH]; intros i st p Hcs Hlim Hparts Hst.
  - by exists st.
  - apply Forall_cons in Hparts as [Hpart Hparts].
    destruct (is_view_inv _ Hpart) as (k & b & ->).
    destruct (process_part_summary chunkSize i k b st p Hcs Hlim Hst)
      as (st1 & Hrun1 & Hst1).
    destruct (IH (S i) st1 _ Hcs Hlim Hparts Hst1) as (st2 & Hrun2 & Hst2).
    exists st2. cbn [process_parts fmap list_fmap run_summary toUint8Array].
    fold (@fmap list _ _ _ (toUint8Array (A:=A))).
    rewrite Hrun1. cbn [mbind gen_bind]. by rewrite Hrun2.
Qed.

Lemma flush_summary chunkSize st p :
  carry_holds chunkSize st p →
  flush st = (last_chunk p, inr st).
Proof.
  intros (Hlen & Hlt & Hbuf). unfold flush. rewrite Hlen.
  destruct p as [|x p]; [done|].
  destruct (carryBuffer st) as [cb|]; [|done].
  cbn. unfold subarray. rewrite Nat.min_0_l, Nat.sub_0_r, Nat.min_l; [done|].
  destruct Hbuf as [-> _]. simpl in Hlt. lia.
Qed.

Lemma yields_app (evs1 evs2 : list event) :
  yields (evs1 ++ evs2) = yields evs1 ++ yields evs2.
Proof. apply omap_app. Qed.

Lemma yields_slices chunkSize i offset n :
  yields (slices chunkSize i offset n)
  = (λ m, InputSlice i (Span (offset + m * chunkSize) chunkSize)) <$> seq 0 n.
Proof.
  unfold slices, yields. induction (seq 0 n) as [|m ms IH]; [done|].
  csimpl. by f_equal.
Qed.

Lemma yields_save i r : yields (save i r) = [] :> list (chunk_ref (A:=A)).
Proof. by destruct r. Qed.

Lemma windows_S chunkSize offset n b :
  windows chunkSize offset (S n) b
  = take chunkSize (drop offset b) :: windows chunkSize (offset + chunkSize) n b.
Proof.
  unfold windows. rewrite <- cons_seq, fmap_cons, <- fmap_S_seq, <- list_fmap_compose.
  f_equal; [by rewrite Nat.add_0_r|].
  apply list_fmap_ext. intros _ m _. simpl. do 2 f_equal. lia.
Qed.

Lemma join_windows chunkSize n : ∀ offset b,
  mjoin (windows chunkSize offset n b) = take (n * chunkSize) (drop offset b).
Proof.
  induction n as [|n IH]; intros offset b; [done|].
  rewrite windows_S. simpl. rewrite IH.
  by rewrite <- drop_drop, take_take_drop.
Qed.

Lemma windows_full chunkSize offset n b :
  offset + n * chunkSize ≤ length b →
  Forall (λ c, length c = chunkSize) (windows chunkSize offset n b).
Proof.
  intros Hfit. apply Forall_fmap, Forall_forall. intros m Hm%elem_of_seq.
  simpl. rewrite length_take, length_drop. nia.
Qed.

Lemma bytes_of_app units carry evs1 evs2 :
  bytes_of units carry (evs1 ++ evs2)
  = bytes_of units carry evs1 ++ bytes_of units carry evs2.
Proof. unfold bytes_of. by rewrite yields_app, fmap_app. Qed.

Lemma bytes_of_save (units : list (list A)) carry i r :
  bytes_of units carry (save i r) = [].
Proof. unfold bytes_of. by rewrite yields_save. Qed.

Lemma bytes_of_slices units carry chunkSize i offset n b :
  units !! i = Some b →
  bytes_of units carry (slices chunkSize i offset n)
  = windows chunkSize offset n b.
Proof.
  intros Hb. unfold bytes_of. rewrite yields_slices, <- list_fmap_compose.
  apply list_fmap_ext. intros _ m _. simpl. by rewrite Hb.
Qed.

Lemma part_bytes chunkSize i p b units carry :
  0 < chunkSize → length p < chunkSize → units !! i = Some b →
  let part := part_summary chunkSize i p b in
  let chunks := bytes_of units carry part.1 in
  mjoin chunks ++ part.2 = p ++ b
  ∧ Forall (λ c, length c = chunkSize) chunks
  ∧ length part.2 < chunkSize.
Proof.
  intros Hcs Hp Hb.
  destruct (decide (b = [])) as [->|Hne].
  { rewrite part_summary_nil. simpl. by rewrite app_nil_r. }
  destruct (decide (p = [])) as [->|Hpne].
  - rewrite part_summary_direct by done. cbn [fst snd].
    pose proof (div_bounds (length b) chunkSize Hcs) as Hn.
    rewrite bytes_of_app, bytes_of_save, app_nil_r.
    rewrite (bytes_of_slices _ _ _ _ _ _ b) by done.
    rewrite join_windows, drop_0, take_drop. split; [done|].
    split; [apply windows_full; lia|]. rewrite length_drop. lia.
  - destruct (Nat.le_gt_cases (chunkSize - length p) (length b)) as [Hle|Hgt].
    + rewrite part_summary_merge by done. cbn [fst snd].
      set (needed := chunkSize - length p).
      pose proof (div_bounds (length b - needed) chunkSize Hcs) as Hn.
      rewrite !bytes_of_app, bytes_of_save, app_nil_r.
      rewrite (bytes_of_slices _ _ _ _ _ _ b) by done.
      cbn [bytes_of yields omap list_omap fmap list_fmap chunk_bytes app
           mjoin list_join].
      rewrite join_windows. split; [|split].
      * rewrite <- !app_assoc. f_equal.
        rewrite <- drop_drop. by rewrite !take_drop.
      * apply Forall_cons. split; [|apply windows_full; lia].
        rewrite length_app, length_take. lia.
      * rewrite length_drop. lia.
    + rewrite part_summary_accumulate by done. simpl.
      split; [done|]. split; [done|]. rewrite length_app. lia.
Qed.

Lemma run_bytes chunkSize all_units carry units : ∀ pre p,
  0 < chunkSize → length p < chunkSize → all_units = pre ++ units →
  let run := run_summary chunkSize (length pre) p units in
  let chunks := bytes_of all_units carry run.1 in
  mjoin chunks ++ run.2 = p ++ mjoin units
  ∧ Forall (λ c, length c = chunkSize) chunks
  ∧ length run.2 < chunkSize.
Proof.
  induction units as [|b units IH]; intros pre p Hcs Hp Hall.
  { simpl. by rewrite app_nil_r. }
  assert (all_units !! length pre = Some b) as Hb
    by (subst; apply list_lookup_middle; done).
  destruct (part_bytes chunkSize (length pre) p b all_units carry Hcs Hp Hb)
    as (Hjoin1 & Hfull1 & Hp1).
  destruct (IH (pre ++ [b]) (part_summary chunkSize (length pre) p b).2
              Hcs Hp1) as (Hjoin2 & Hfull2 & Hp2).
  { by rewrite <- app_assoc. }
  rewrite length_app, Nat.add_1_r in Hjoin2, Hfull2, Hp2.
  cbn [run_summary fst snd]. rewrite bytes_of_app, join_app.
  split; [|split; [by apply Forall_app|done]].
  rewrite <- app_assoc, Hjoin2, app_assoc, Hjoin1. simpl.
  by rewrite <- app_assoc.
Qed.

Lemma bytes_of_last_chunk units carry p :
  take (length p) carry = p →
  bytes_of units carry (last_chunk p) = tail_chunk p.
Proof.
  intros Hcarry. destruct p as [|x p]; [done|].
  unfold bytes_of, last_chunk. cbn [yields omap list_omap fmap list_fmap chunk_bytes].
  unfold read_span. cbn [span_size span_begin]. by rewrite drop_0, Hcarry.
Qed.

Lemma chunking_unique chunkSize l chunks1 : ∀ l' chunks2 r1 r2,
  l = l' →
  chunking chunkSize l chunks1 r1 → chunking chunkSize l' chunks2 r2 →
  chunks1 = chunks2 ∧ r1 = r2.
Proof.
  revert l. induction chunks1 as [|c1 chunks1 IH];
    intros l l' [|c2 chunks2] r1 r2 <- (H1 & F1 & L1) (H2 & F2 & L2).
  - simpl in *. by subst.
  - apply Forall_cons in F2 as [Hc2 _]. simpl in *. subst l.
    apply (f_equal length) in H2. rewrite !length_app in H2. lia.
  - apply Forall_cons in F1 as [Hc1 _]. simpl in *. subst l.
    apply (f_equal length) in H2. rewrite !length_app in H2. lia.
  - apply Forall_cons in F1 as [Hc1 F1]. apply Forall_cons in F2 as [Hc2 F2].
    simpl in *. subst l. rewrite <- !app_assoc in H2.
    apply app_inj_1 in H2 as [-> Hrest]; [|lia].
    destruct (IH _ (mjoin chunks1 ++ r1) chunks2 r1 r2 eq_refl) as [-> ->];
      done.
Qed.

Lemma chunkFrom_valid iterable chunkSize parts n :
  sync_source iterable parts → Forall is_view parts →
  is_chunkSize chunkSize n → n ≤ limit →
  let run := run_summary n 0 [] (toUint8Array <$> parts) in
  ∃ st, chunkFrom zero limit iterable chunkSize
        = (run.1 ++ last_chunk run.2, inr st)
      ∧ carry_holds n st run.2.
Proof.
  intros [Hitems Hstr] Hviews Hsize Hlim run.
  destruct (is_chunkSize_valid _ _ Hsize) as [Hvalid Hn].
  assert (0 < n) as Hpos by (destruct Hsize as (? & ? & ? & ? & ?); done).
  unfold chunkFrom, has_iterator. rewrite Hitems, Hstr, Hvalid, Hn.
  rewrite bool_decide_eq_true_2 by done. cbn [negb orb default from_option id].
  destruct (process_parts_summary n parts 0 initial [] Hpos Hlim Hviews)
    as (st & Hrun & Hst); [by split; [|split; [simpl; lia|]]|].
  exists st. rewrite Hrun. cbn [mbind gen_bind].
  by rewrite (flush_summary n st _ Hst).
Qed.

Lemma async_direct_slices_eq fuel chunkSize i len : ∀ offset,
  async_direct_slices fuel chunkSize i len offset
  = direct_slices (A:=A) fuel chunkSize i len offset.
Proof.
  induction fuel as [|fuel IH]; intros offset; [done|].
  simpl. by rewrite IH.
Qed.

Lemma async_slices_and_remainder_eq chunkSize i b st offset :
  async_slices_and_remainder zero limit chunkSize i b st offset
  = slices_and_remainder zero limit chunkSize i b st offset.
Proof.
  unfold async_slices_and_remainder, slices_and_remainder.
  by rewrite async_direct_slices_eq.
Qed.

Lemma async_process_part_eq chunkSize i part st :
  async_process_part zero limit chunkSize i part st
  = process_part zero limit chunkSize i part st.
Proof.
  unfold async_process_part, process_part.
  by rewrite !async_slices_and_remainder_eq.
Qed.

Lemma async_process_parts_eq chunkSize parts : ∀ i st,
  async_process_parts zero limit chunkSize i parts st
  = process_parts zero limit chunkSize i parts st.
Proof.
  induction parts as [|part parts IH]; intros i st; [done|].
  simpl. rewrite async_process_part_eq.
  destruct (process_part zero limit chunkSize i part st) as [evs [e|st']]; [done|].
  simpl. by rewrite IH.
Qed.

Lemma async_flush_eq st : async_flush st = flush (A:=A) st.
Proof. done. Qed.

Lemma chunkFromAsync_valid iterable chunkSize parts n :
  async_source iterable parts → Forall is_view parts →
  is_chunkSize chunkSize n → n ≤ limit →
  let run := run_summary n 0 [] (toUint8Array <$> parts) in
  ∃ st, chunkFromAsync zero limit iterable chunkSize
        = (run.1 ++ last_chunk run.2, inr st)
      ∧ carry_holds n st run.2.
Proof.
  intros Hitems Hviews Hsize Hlim run.
  destruct (is_chunkSize_valid _ _ Hsize) as [Hvalid Hn].
  assert (0 < n) as Hpos by (destruct Hsize as (? & ? & ? & ? & ?); done).
  unfold chunkFromAsync. rewrite Hitems, Hvalid, Hn.
  assert (negb (has_async_iterator iterable) && negb (has_iterator iterable)
          = false) as ->.
  { unfold async_source, for_await_items, has_async_iterator, has_iterator in *.
    destruct (async_items iterable); [done|].
    destruct (sync_items iterable); [done|]. done. }
  cbn [default from_option id]. rewrite async_process_parts_eq.
  destruct (process_parts_summary n parts 0 initial [] Hpos Hlim Hviews)
    as (st & Hrun & Hst); [by split; [|split; [simpl; lia|]]|].
  exists st. rewrite Hrun. cbn [mbind gen_bind].
  by rewrite async_flush_eq, (flush_summary n st _ Hst).
Qed.

Lemma collect_run parts n st p (evs : list event) :
  carry_holds n st p →
  collect parts (evs ++ last_chunk p, inr st)
  = bytes_of (toUint8Array <$> parts) (default [] (carryBuffer st)) evs
      ++ tail_chunk p.
Proof.
  intros (_ & _ & Hbuf). unfold collect, final_carry. cbn [fst snd].
  fold (bytes_of (toUint8Array <$> parts) (default [] (carryBuffer st))
          (evs ++ last_chunk p)).
  rewrite bytes_of_app. f_equal. apply bytes_of_last_chunk.
  destruct (carryBuffer st); [tauto|by subst].
Qed.

Lemma rechunked (parts : list (value A)) n (res : gen carry_state) :
  Forall is_view parts → 0 < n →
  (let run := run_summary n 0 [] (toUint8Array <$> parts) in
   ∃ st, res = (run.1 ++ last_chunk run.2, inr st) ∧ carry_holds n st run.2) →
  ∃ chunks rest,
    collect parts res = chunks ++ tail_chunk rest
    ∧ chunking n (mjoin (toUint8Array <$> parts)) chunks rest.
Proof.
  intros Hviews Hpos (st & -> & Hst).
  rewrite (collect_run _ n _ _ _ Hst).
  eexists _, _. split; [done|].
  by apply (run_bytes n (toUint8Array <$> parts) _ _ [] []).
Qed.

(** ** Validation and errors *)

Lemma process_part_not_view chunkSize i (part : value A) st :
  ¬ is_view part →
  process_part zero limit chunkSize i part st = ([], inl (TypeError msg_part)).
Proof.
  unfold is_view, process_part. by destruct (ArrayBuffer_isView part).
Qed.

Lemma not_chunkSize_invalid (chunkSize : value A) :
  (¬ ∃ n, is_chunkSize chunkSize n) → invalid_chunkSize chunkSize = true.
Proof.
  intros Hnot. apply not_false_iff_true. intros Hvalid.
  apply Hnot. eexists. by apply valid_is_chunkSize.
Qed.



Lemma positive_safe_integer_valid (chunkSize : value A) :
  positive_safe_integer chunkSize →
  invalid_chunkSize chunkSize = false ∧ 0 < chunkSize_to_nat chunkSize.
Proof.
  intros [n Hsize]. destruct (is_chunkSize_valid _ _ Hsize) as [-> ->].
  by destruct Hsize as (? & ? & ? & ? & ?).
Qed.

Lemma rejected_numbers x :
  x = NaN ∨ x = PosInfinity ∨ x = NegInfinity
  ∨ (∃ q, x = Finite q
          ∧ ((q <= 0)%Q ∨ (∀ z, ¬ (q == inject_Z z)%Q)
             ∨ (inject_Z MAX_SAFE_INTEGER < q)%Q)) →
  invalid_chunkSize (A:=A) (VNumber x) = true.
Proof.
  intros Hx. apply not_chunkSize_invalid.
  intros (n & q & [= ->] & Heq & Hpos & Hmax).
  destruct Hx as [?|[?|[?|(q' & [= <-] & Hq)]]]; try done.
  destruct Hq as [Hle|[Hint|Hbig]].
  - rewrite Heq in Hle. unfold Qle in Hle. simpl in Hle. lia.
  - by apply (Hint (Z.of_nat n)).
  - rewrite Heq in Hbig. unfold Qlt in Hbig. simpl in Hbig. lia.
Qed.

Lemma chunkFrom_source_rejected (iterable chunkSize : value A) :
  (∀ parts, ¬ sync_source iterable parts) →
  chunkFrom zero limit iterable chunkSize = ([], inl (TypeError msg_iterable)).
Proof.
  intros Hnot. unfold chunkFrom, has_iterator.
  destruct (sync_items iterable) as [parts|] eqn:Hitems; [|done].
  destruct (typeof_string iterable) eqn:Hstr.
  - by rewrite orb_true_r.
  - by destruct (Hnot parts).
Qed.

Lemma chunkFrom_source_accepted (iterable chunkSize : value A) parts :
  sync_source iterable parts →
  chunkFrom zero limit iterable chunkSize
  = if invalid_chunkSize chunkSize
    then ([], inl (TypeError msg_chunkSize))
    else process_parts zero limit (chunkSize_to_nat chunkSize) 0 parts initial
           ≫= flush.
Proof.
  intros [Hitems Hstr]. unfold chunkFrom, has_iterator.
  by rewrite Hitems, Hstr, bool_decide_eq_true_2.
Qed.

Lemma chunkFromAsync_source_rejected (iterable chunkSize : value A) :
  (∀ parts, ¬ async_source iterable parts) →
  chunkFromAsync zero limit iterable chunkSize
  = ([], inl (TypeError msg_async_iterable)).
Proof.
  intros Hnot. unfold chunkFromAsync, has_iterator, has_async_iterator.
  unfold async_source, for_await_items in Hnot.
  destruct (async_items iterable) as [parts|]; [by destruct (Hnot parts)|].
  destruct (sync_items iterable) as [parts|]; [by destruct (Hnot (await <$> parts))|].
  done.
Qed.

Lemma chunkFromAsync_source_accepted (iterable chunkSize : value A) parts :
  async_source iterable parts →
  chunkFromAsync zero limit iterable chunkSize
  = if invalid_chunkSize chunkSize
    then ([], inl (TypeError msg_chunkSize))
    else process_parts zero limit (chunkSize_to_nat chunkSize) 0 parts initial
           ≫= flush.
Proof.
  unfold async_source, chunkFromAsync, has_iterator, has_async_iterator.
  intros Hitems. rewrite Hitems.
  assert (negb (bool_decide (is_Some (async_items iterable)))
          && negb (bool_decide (is_Some (sync_items iterable))) = false) as ->.
  { unfold for_await_items in Hitems.
    destruct (async_items iterable); [done|].
    by destruct (sync_items iterable). }
  destruct (invalid_chunkSize chunkSize); [done|].
  cbn [default from_option id]. by rewrite async_process_parts_eq.
Qed.

(** ** A run that cannot allocate *)

Lemma process_part_aligned chunkSize i k (b : list A) st m :
  0 < chunkSize → carryLength st = 0 → length b = m * chunkSize →
  process_part zero limit chunkSize i (VView k b) st
  = (slices chunkSize i 0 m, inr st).
Proof.
  intros Hcs Hcarry Hlen. unfold process_part.
  cbn [ArrayBuffer_isView negb toUint8Array].
  destruct (Nat.eqb_spec (length b) 0) as [Hnil|Hne].
  { assert (m = 0) as -> by nia. done. }
  rewrite Hcarry. cbn [Nat.ltb Nat.leb]. unfold slices_and_remainder.
  rewrite (direct_slices_spec _ _ _ _ _ m) by (done || nia).
  cbn [mbind gen_bind Nat.add].
  destruct (Nat.ltb_spec (m * chunkSize) (length b)); [lia|].
  cbn [mret gen_ret]. by rewrite app_nil_r.
Qed.

Lemma process_parts_aligned chunkSize parts : ∀ i st,
  0 < chunkSize → carryLength st = 0 → Forall is_view parts →
  Forall (λ v, length (toUint8Array v) mod chunkSize = 0) parts →
  ∃ evs, process_parts zero limit chunkSize i parts st = (evs, inr st)
         ∧ Forall (λ ev, ∃ j s, ev = Yield (InputSlice j s)) evs.
Proof.
  induction parts as [|part parts IH]; intros i st Hcs Hcarry Hviews Haligned.
  { by exists []. }
  apply Forall_cons in Hviews as [Hview Hviews].
  apply Forall_cons in Haligned as [Hmod Haligned].
  destruct (is_view_inv part Hview) as (k & b & ->). simpl in Hmod.
  destruct (IH (S i) st Hcs Hcarry Hviews Haligned) as (evs & Hrest & Hevs).
  cbn [process_parts].
  rewrite (process_part_aligned _ _ _ _ _ (length b / chunkSize)); try done.
  2: { pose proof (Nat.div_mod_eq (length b) chunkSize). lia. }
  cbn [mbind gen_bind]. rewrite Hrest. eexists. split; [done|].
  apply Forall_app. split; [|done].
  apply Forall_fmap, Forall_forall. intros m _. simpl. eauto.
Qed.

(** A unit that leaves a remainder, when nothing is pending and the carry
    buffer cannot be allocated: the direct slices, then the
    [RangeError] of line 74. *)
Lemma process_part_starved chunkSize i k (b : list A) :
  0 < chunkSize → limit < chunkSize → length b mod chunkSize ≠ 0 →
  process_part zero limit chunkSize i (VView k b) initial
  = (slices chunkSize i 0 (length b / chunkSize), inl RangeError).
Proof.
  intros Hcs Hlim Hmod. unfold process_part.
  cbn [ArrayBuffer_isView negb toUint8Array].
  pose proof (Nat.div_mod_eq (length b) chunkSize) as Hdiv.
  pose proof (Nat.mod_upper_bound (length b) chunkSize ltac:(lia)) as Hlt.
  destruct (Nat.eqb_spec (length b) 0) as [Hnil|Hne].
  { rewrite Hnil, Nat.Div0.mod_0_l in Hmod. done. }
  cbn [initial carryLength Nat.ltb Nat.leb]. unfold slices_and_remainder.
  rewrite (direct_slices_spec _ _ _ _ _ (length b / chunkSize))
    by (done || nia).
  cbn [mbind gen_bind Nat.add carryBuffer].
  destruct (Nat.ltb_spec (length b / chunkSize * chunkSize) (length b));
    [|lia].
  rewrite new_Uint8Array_fails by done.
  cbn [initial carryBuffer mbind gen_bind]. by rewrite app_nil_r.
Qed.

Lemma process_parts_starved chunkSize parts : ∀ i,
  0 < chunkSize → limit < chunkSize → Forall is_view parts →
  let run := starved_summary chunkSize i (toUint8Array <$> parts) in
  process_parts zero limit chunkSize i parts initial
  = (run.1, if run.2 then inr initial else inl RangeError).
Proof.
  induction parts as [|part parts IH]; intros i Hcs Hlim Hviews; [done|].
  apply Forall_cons in Hviews as [Hview Hviews].
  destruct (is_view_inv part Hview) as (k & b & ->).
  cbn [process_parts fmap list_fmap starved_summary toUint8Array].
  fold (@fmap list _ _ _ (toUint8Array (A:=A))).
  destruct (Nat.eqb_spec (length b mod chunkSize) 0) as [Hmod|Hmod].
  - rewrite (process_part_aligned _ _ _ _ _ (length b / chunkSize));
      try done.
    2: { pose proof (Nat.div_mod_eq (length b) chunkSize). lia. }
    cbn [mbind gen_bind]. by rewrite (IH (S i)).
  - by rewrite process_part_starved.
Qed.

Lemma starved_slices chunkSize units : ∀ i,
  Forall slice_event (starved_summary chunkSize i units).1.
Proof.
  induction units as [|b units IH]; intros i; [done|].
  cbn [starved_summary].
  assert (Forall slice_event (slices chunkSize i 0 (length b / chunkSize)))
    as Hslices.
  { apply Forall_fmap, Forall_forall. intros m _. by eexists _, _. }
  destruct (_ =? _); [|done]. cbn [fst]. apply Forall_app. by split.
Qed.

(** A run that cannot allocate does what a run that can does, up to the
    first copy; if it pulls every unit, it is that run, and nothing is
    pending at the end. *)
Lemma starved_prefix chunkSize units : ∀ i,
  0 < chunkSize →
  let run := starved_summary chunkSize i units in
  let summary := run_summary chunkSize i [] units in
  ∃ later, summary.1 = run.1 ++ later
           ∧ (run.2 = true → later = [] ∧ summary.2 = []).
Proof.
  induction units as [|b units IH]; intros i Hcs.
  { by exists []. }
  cbn [starved_summary run_summary].
  destruct (decide (b = [])) as [->|Hne].
  { rewrite part_summary_nil. cbn [length]. rewrite Nat.Div0.mod_0_l.
    cbn [Nat.eqb fst snd app]. destruct (IH (S i) Hcs) as (later & Heq & Hend).
    exists later. by rewrite Nat.Div0.div_0_l. }
  rewrite part_summary_direct by done. cbn [fst snd].
  pose proof (Nat.div_mod_eq (length b) chunkSize) as Hdiv.
  destruct (Nat.eqb_spec (length b mod chunkSize) 0) as [Hmod|Hmod].
  - assert (drop (length b / chunkSize * chunkSize) b = []) as ->
      by (apply drop_ge; lia).
    destruct (IH (S i) Hcs) as (later & Heq & Hend).
    exists later. cbn [save fst snd]. rewrite app_nil_r, Heq.
    by rewrite app_assoc.
  - eexists. cbn [fst snd]. rewrite <- app_assoc. split; [done|]. done.
Qed.

Lemma starved_aligned chunkSize units : ∀ i,
  Forall (λ b, length b mod chunkSize = 0) units →
  (starved_summary chunkSize i units).2 = true.
Proof.
  induction units as [|b units IH]; intros i Haligned; [done|].
  apply Forall_cons in Haligned as [Hmod Haligned].
  cbn [starved_summary]. rewrite Hmod. cbn [Nat.eqb snd]. by apply IH.
Qed.

Lemma slice_events_copy_nothing (evs : list event) :
  Forall slice_event evs →
  copied evs = [] ∧ copied_from_input evs = [] ∧ copied_from_carry evs = []
  ∧ copied_to_carry evs = [].
Proof.
  unfold copied, copied_from_input, copied_from_carry, copied_to_carry.
  induction 1 as [|ev evs (i & s & ->) _ IH]; [done|]. by csimpl.
Qed.

(** The shape of a run of either re-chunker over valid input: the run the
    summary tells, or, when the carry buffer cannot be allocated and a
    unit leaves a remainder, the run cut short that [starved_summary]
    tells. *)
Lemma run_shape iterable chunkSize parts n (run : gen carry_state) :
  Forall is_view parts → is_chunkSize chunkSize n →
  sync_source iterable parts ∧ run = chunkFrom zero limit iterable chunkSize
  ∨ async_source iterable parts ∧ run = chunkFromAsync zero limit iterable chunkSize →
  let summary := run_summary n 0 [] (toUint8Array <$> parts) in
  let starved := starved_summary n 0 (toUint8Array <$> parts) in
  ((limit < n → starved.2 = true ∧ summary.2 = [])
   ∧ ∃ st, run = (summary.1 ++ last_chunk summary.2, inr st)
           ∧ carry_holds n st summary.2)
  ∨ (limit < n ∧ starved.2 = false ∧ run = (starved.1, inl RangeError)).
Proof.
  intros Hviews Hsize Hrun summary starved.
  destruct (Nat.le_gt_cases n limit) as [Hlim|Hlim].
  { left. split; [lia|]. destruct Hrun as [[Hsrc ->]|[Hsrc ->]].
    - by apply chunkFrom_valid.
    - by apply chunkFromAsync_valid. }
  destruct (is_chunkSize_valid _ _ Hsize) as [Hvalid Hn].
  assert (0 < n) as Hpos by (destruct Hsize as (? & ? & ? & ? & ?); done).
  assert (run = process_parts zero limit n 0 parts initial ≫= flush) as ->.
  { destruct Hrun as [[Hsrc ->]|[Hsrc ->]].
    - by rewrite (chunkFrom_source_accepted _ _ _ Hsrc), Hvalid, Hn.
    - by rewrite (chunkFromAsync_source_accepted _ _ _ Hsrc), Hvalid, Hn. }
  rewrite process_parts_starved by done. fold starved.
  destruct (starved_prefix n (toUint8Array <$> parts) 0 Hpos)
    as (later & Heq & Hend).
  fold summary starved in Heq, Hend.
  destruct starved.2 eqn:Hall.
  - left. destruct (Hend eq_refl) as [-> Hnil]. split; [done|].
    exists initial. rewrite Hnil, Heq. cbn. rewrite !app_nil_r.
    split; [done|]. by apply carry_holds_initial.
  - right. by cbn.
Qed.

(** ** How the loop ends *)

Lemma process_parts_outcome_fits chunkSize parts : ∀ i st p,
  0 < chunkSize → chunkSize ≤ limit → carry_holds chunkSize st p →
  (Forall is_view parts
   ∧ ∃ st', (process_parts zero limit chunkSize i parts st).2 = inr st'
            ∧ ∃ p', carry_holds chunkSize st' p')
  ∨ (¬ Forall is_view parts
     ∧ (process_parts zero limit chunkSize i parts st).2 = inl (TypeError msg_part)).
Proof.
  induction parts as [|part parts IH]; intros i st p Hcs Hlim Hst.
  { left. split; [done|]. exists st. eauto. }
  cbn [process_parts].
  destruct (ArrayBuffer_isView part) eqn:Hview.
  - destruct (is_view_inv part Hview) as (k & b & ->).
    destruct (process_part_summary chunkSize i k b st p Hcs Hlim Hst)
      as (st1 & -> & Hst1).
    cbn [mbind gen_bind].
    destruct (IH (S i) st1 _ Hcs Hlim Hst1) as [[Hviews Hok]|[Hbad Herr]].
    + left. split; [by constructor|].
      by destruct (process_parts zero limit chunkSize (S i) parts st1).
    + right. split; [by intros [_ ?]%Forall_cons|].
      by destruct (process_parts zero limit chunkSize (S i) parts st1).
  - right. assert (¬ is_view part) as Hnot by (unfold is_view; congruence).
    split; [by intros [? _]%Forall_cons|].
    by rewrite process_part_not_view.
Qed.

Lemma allocation_fails_cons limit' chunkSize (v : value A) parts :
  is_view v →
  allocation_fails limit' chunkSize (v :: parts)
  ↔ limit' < chunkSize
    ∧ (¬ aligned chunkSize v ∨ allocation_fails limit' chunkSize parts).
Proof.
  intros Hview. split.
  - intros (Hlim & pre & u & rest & Heq & Hpre & Hu & Hrem).
    split; [done|]. destruct pre as [|w pre].
    + injection Heq as <- <-. by left.
    + injection Heq as <- ->. apply Forall_cons in Hpre as [_ Hpre].
      right. split; [done|]. by exists pre, u, rest.
  - intros [Hlim [Hrem|(_ & pre & u & rest & -> & Hpre & Hu & Hrem)]].
    + split; [done|]. by exists [], v, parts.
    + split; [done|]. exists (v :: pre), u, rest.
      split; [done|]. split; [by constructor|done].
Qed.

Lemma allocation_fails_not_view limit' chunkSize (v : value A) parts :
  ¬ is_view v → ¬ allocation_fails limit' chunkSize (v :: parts).
Proof.
  intros Hbad (_ & pre & u & rest & Heq & Hpre & Hu & _).
  destruct pre as [|w pre].
  - by injection Heq as <- <-.
  - injection Heq as <- ->. by apply Forall_cons in Hpre as [? _].
Qed.

Lemma process_parts_outcome_starved chunkSize parts : ∀ i,
  0 < chunkSize → limit < chunkSize →
  match (process_parts zero limit chunkSize i parts initial).2 with
  | inr st =>
      st = initial ∧ Forall is_view parts ∧ Forall (aligned chunkSize) parts
  | inl RangeError => allocation_fails limit chunkSize parts
  | inl (TypeError m) =>
      m = msg_part ∧ ¬ Forall is_view parts
      ∧ ¬ allocation_fails limit chunkSize parts
  | inl UndefinedProperty => False
  end.
Proof.
  induction parts as [|part parts IH]; intros i Hcs Hlim; [done|].
  cbn [process_parts].
  destruct (ArrayBuffer_isView part) eqn:Hview.
  - destruct (is_view_inv part Hview) as (k & b & ->).
    destruct (decide (length b mod chunkSize = 0)) as [Hmod|Hmod].
    + rewrite (process_part_aligned _ _ _ _ _ (length b / chunkSize));
        try done.
      2: { pose proof (Nat.div_mod_eq (length b) chunkSize). lia. }
      cbn [mbind gen_bind]. specialize (IH (S i) Hcs Hlim).
      destruct (process_parts zero limit chunkSize (S i) parts initial)
        as [evs [[m| |]|st]]; cbn [snd] in *.
      * destruct IH as (-> & Hbad & Hfits). split; [done|]. split.
        -- by intros [_ ?]%Forall_cons.
        -- rewrite allocation_fails_cons by done. intros [_ [?|?]]; done.
      * rewrite allocation_fails_cons by done. split; [done|]. by right.
      * done.
      * destruct IH as (-> & Hviews & Haligned).
        split; [done|]. split; by constructor.
    + rewrite process_part_starved by done. cbn [mbind gen_bind snd].
      rewrite allocation_fails_cons by done. split; [done|]. by left.
  - assert (¬ is_view part) as Hnot by (unfold is_view; congruence).
    rewrite process_part_not_view by done. cbn [mbind gen_bind snd].
    split; [done|]. split; [by intros [? _]%Forall_cons|].
    by apply allocation_fails_not_view.
Qed.

(** How the loop of a run ends, in every case: normally, in a state that
    holds the pending bytes; on the first item that is not a view; or,
    when the carry buffer cannot be allocated, on the first view that
    needs it. *)
Lemma process_parts_outcome chunkSize parts :
  0 < chunkSize →
  match (process_parts zero limit chunkSize 0 parts initial).2 with
  | inr st =>
      Forall is_view parts ∧ ¬ allocation_fails limit chunkSize parts
      ∧ ∃ p, carry_holds chunkSize st p
  | inl RangeError => allocation_fails limit chunkSize parts
  | inl (TypeError m) =>
      m = msg_part ∧ ¬ Forall is_view parts
      ∧ ¬ allocation_fails limit chunkSize parts
  | inl UndefinedProperty => False
  end.
Proof.
  intros Hcs. destruct (Nat.le_gt_cases chunkSize limit) as [Hlim|Hlim].
  - assert (¬ allocation_fails limit chunkSize parts) as Hfits
      by (intros [? _]; lia).
    destruct (process_parts_outcome_fits chunkSize parts 0 initial []
                Hcs Hlim (carry_holds_initial chunkSize Hcs))
      as [[Hviews (st & -> & Hst)]|[Hbad ->]]; done.
  - pose proof (process_parts_outcome_starved chunkSize parts 0 Hcs Hlim)
      as Hend.
    destruct (process_parts zero limit chunkSize 0 parts initial).2
      as [[m| |]|st]; try done.
    destruct Hend as (-> & Hviews & Haligned). split; [done|]. split.
    + intros (_ & pre & u & rest & -> & _ & _ & Hrem).
      apply Forall_app in Haligned as [_ [? _]%Forall_cons]. done.
    + exists []. by apply carry_holds_initial.
Qed.

Lemma rechunk_outcome chunkSize parts :
  0 < chunkSize →
  match (process_parts zero limit chunkSize 0 parts initial ≫= flush).2 with
  | inr st =>
      Forall is_view parts ∧ ¬ allocation_fails limit chunkSize parts
  | inl RangeError => allocation_fails limit chunkSize parts
  | inl (TypeError m) =>
      m = msg_part ∧ ¬ Forall is_view parts
      ∧ ¬ allocation_fails limit chunkSize parts
  | inl UndefinedProperty => False
  end.
Proof.
  intros Hcs. pose proof (process_parts_outcome chunkSize parts Hcs) as Hend.
  destruct (process_parts zero limit chunkSize 0 parts initial)
    as [evs [e|st]]; [done|].
  cbn [snd] in Hend. destruct Hend as (Hviews & Hfits & p & Hst).
  cbn [mbind gen_bind]. by rewrite (flush_summary chunkSize st p Hst).
Qed.

(** A loop that ends normally has done what the summary tells. *)
Lemma process_parts_normal_end chunkSize parts (evs : list event) st :
  0 < chunkSize →
  process_parts zero limit chunkSize 0 parts initial = (evs, inr st) →
  let summary := run_summary chunkSize 0 [] (toUint8Array <$> parts) in
  Forall is_view parts ∧ evs = summary.1 ∧ carry_holds chunkSize st summary.2.
Proof.
  intros Hcs Hrun summary.
  pose proof (process_parts_outcome chunkSize parts Hcs) as Hend.
  rewrite Hrun in Hend. destruct Hend as (Hviews & Hfits & _).
  split; [done|].
  destruct (Nat.le_gt_cases chunkSize limit) as [Hlim|Hlim].
  - destruct (process_parts_summary chunkSize parts 0 initial [] Hcs Hlim Hviews
                (carry_holds_initial chunkSize Hcs))
      as (st' & Hsummary & Hst).
    rewrite Hrun in Hsummary. by injection Hsummary as -> ->.
  - rewrite process_parts_starved in Hrun by done.
    destruct (starved_prefix chunkSize (toUint8Array <$> parts) 0 Hcs)
      as (later & Heq & Hdone).
    fold summary in Heq, Hdone.
    destruct (starved_summary chunkSize 0 (toUint8Array <$> parts))
      as [evs' [|]]; [|done].
    injection Hrun as <- <-. destruct (Hdone eq_refl) as [-> ->].
    cbn [fst] in Heq. rewrite app_nil_r in Heq.
    split; [done|]. by apply carry_holds_initial.
Qed.

(** A first unit shorter than a chunk size that cannot be allocated: the
    run throws the [RangeError] of line 74 before it has yielded or
    copied anything. *)
Lemma first_unit_starved iterable chunkSize n k (b : list A) rest
    (run : gen carry_state) :
  is_chunkSize chunkSize n → limit < n → 0 < length b < n →
  sync_source iterable (VView k b :: rest)
  ∧ run = chunkFrom zero limit iterable chunkSize
  ∨ async_source iterable (VView k b :: rest)
    ∧ run = chunkFromAsync zero limit iterable chunkSize →
  run = ([], inl RangeError).
Proof.
  intros Hsize Hbig Hshort Hrun.
  destruct (is_chunkSize_valid _ _ Hsize) as [Hvalid Hn].
  assert (run = process_parts zero limit n 0 (VView k b :: rest) initial
                  ≫= flush) as ->.
  { destruct Hrun as [[Hsrc ->]|[Hsrc ->]].
    - by rewrite (chunkFrom_source_accepted _ _ _ Hsrc), Hvalid, Hn.
    - by rewrite (chunkFromAsync_source_accepted _ _ _ Hsrc), Hvalid, Hn. }
  cbn [process_parts].
  rewrite process_part_starved; [|lia|done|rewrite Nat.mod_small; lia].
  by rewrite Nat.div_small by lia.
Qed.

(** ** Round trip, chunk sizes, idempotence *)

Lemma join_tail_chunk r : mjoin (tail_chunk r) = r.
Proof. destruct r; [done|]. simpl. by rewrite app_nil_r. Qed.

Lemma length_join_full n (chunks : list (list A)) :
  Forall (λ c, length c = n) chunks → length (mjoin chunks) = length chunks * n.
Proof.
  induction 1 as [|c chunks Hc _ IH]; [done|].
  simpl. rewrite length_app. lia.
Qed.

Lemma chunking_total n l chunks r :
  chunking n l chunks r →
  length l / n = length chunks ∧ length l mod n = length r.
Proof.
  intros (<- & Hfull & Hr). rewrite length_app, (length_join_full n) by done.
  set (t := length chunks * n + length r).
  apply (Nat.div_mod_unique n); [apply Nat.mod_upper_bound; lia|done|].
  rewrite <- Nat.div_mod_eq. unfold t. lia.
Qed.

(** The chunks of a run cut short by a failed allocation: full chunks,
    holding the first bytes of the input. *)
Lemma starved_chunks n (parts : list (value A)) :
  0 < n →
  let units := toUint8Array <$> parts in
  let out := collect parts ((starved_summary n 0 units).1, inl RangeError) in
  Forall (λ c, length c = n) out ∧ mjoin out `prefix_of` mjoin units.
Proof.
  intros Hpos units out.
  destruct (starved_prefix n units 0 Hpos) as (later & Heq & _).
  destruct (run_bytes n units [] units [] [] Hpos ltac:(simpl; lia) eq_refl)
    as (Hjoin & Hfull & _).
  cbn [length app] in Hjoin, Hfull. rewrite Heq in Hjoin, Hfull.
  rewrite bytes_of_app in Hjoin, Hfull.
  apply Forall_app in Hfull as [Hfull _]. split; [done|].
  rewrite join_app, <- app_assoc in Hjoin. by eexists.
Qed.

(** C1, amended. Over valid input units and a positive safe-integer
    chunk size of which a [Uint8Array] can be allocated, [chunkFrom] and
    [chunkFromAsync] end without throwing, and the chunks they yield,
    concatenated in the order yielded, are the bytes of the input units
    concatenated in the order pulled.  Whatever the chunk size, the chunks
    yielded, concatenated, are the first bytes of the input: a run that
    ends on a failed allocation has put no byte out of place. *)
Theorem chunks_concat_to_input iterable chunkSize parts n :
  Forall is_view parts → is_chunkSize chunkSize n →
  (sync_source iterable parts →
   let run := chunkFrom zero limit iterable chunkSize in
   (n ≤ limit →
    is_Some (maybe inr run.2)
    ∧ mjoin (collect parts run) = mjoin (toUint8Array <$> parts))
   ∧ mjoin (collect parts run) `prefix_of` mjoin (toUint8Array <$> parts))
  ∧ (async_source iterable parts →
     let run := chunkFromAsync zero limit iterable chunkSize in
     (n ≤ limit →
      is_Some (maybe inr run.2)
      ∧ mjoin (collect parts run) = mjoin (toUint8Array <$> parts))
     ∧ mjoin (collect parts run) `prefix_of` mjoin (toUint8Array <$> parts)).
Proof.
  intros Hviews Hsize.
  assert (0 < n) as Hpos by (destruct Hsize as (? & ? & ? & ? & ?); done).
  assert (∀ res : gen carry_state,
    sync_source iterable parts ∧ res = chunkFrom zero limit iterable chunkSize
    ∨ async_source iterable parts
      ∧ res = chunkFromAsync zero limit iterable chunkSize →
    (n ≤ limit →
     is_Some (maybe inr res.2)
     ∧ mjoin (collect parts res) = mjoin (toUint8Array <$> parts))
    ∧ mjoin (collect parts res) `prefix_of` mjoin (toUint8Array <$> parts))
    as Hres.
  { intros res Hrun.
    destruct (run_shape iterable chunkSize parts n res Hviews Hsize Hrun)
      as [[_ Hshape]|(Hlim & _ & ->)].
    - assert (mjoin (collect parts res) = mjoin (toUint8Array <$> parts))
        as Hjoin.
      { destruct (rechunked parts n res Hviews Hpos Hshape)
          as (chunks & rest & -> & <- & _).
        by rewrite join_app, join_tail_chunk. }
      split; [|by rewrite Hjoin]. intros _. split; [|done].
      destruct Hshape as (st & -> & _). by eexists.
    - split; [lia|]. by apply starved_chunks. }
  split; intros Hsrc; apply Hres; [by left|by right].
Qed.

(** C2. Over valid input units and a positive safe-integer chunk size,
    every chunk [chunkFrom] yields has between 1 and [chunkSize] bytes,
    and exactly [chunkSize] unless it is the last; when the total input
    length is a multiple of [chunkSize] every chunk is full, and there is
    none when the total is zero.  When a [Uint8Array] of [chunkSize] bytes
    can be allocated the run yields every byte, so that the chunks are
    [total / chunkSize] full ones and one more for a remainder. *)
Theorem chunk_size_invariant iterable chunkSize parts n :
  sync_source iterable parts → Forall is_view parts →
  is_chunkSize chunkSize n →
  let out := collect parts (chunkFrom zero limit iterable chunkSize) in
  let total := length (mjoin (toUint8Array <$> parts)) in
  (∀ k c, out !! k = Some c →
     1 ≤ length c ≤ n ∧ (S k < length out → length c = n))
  ∧ (total mod n = 0 → Forall (λ c, length c = n) out)
  ∧ (total = 0 → out = [])
  ∧ (n ≤ limit →
     (total mod n = 0 → length out = total / n)
     ∧ (total mod n ≠ 0 → length out = S (total / n))).
Proof.
  intros Hsrc Hviews Hsize out total.
  assert (0 < n) as Hpos by (destruct Hsize as (? & ? & ? & ? & ?); done).
  destruct (run_shape iterable chunkSize parts n
              (chunkFrom zero limit iterable chunkSize) Hviews Hsize)
    as [[_ Hshape]|(Hlim & _ & Hrun)]; [by left| |].
  - destruct (rechunked parts n _ Hviews Hpos Hshape)
      as (chunks & rest & Hout & Hcut).
    fold out in Hout. destruct (chunking_total _ _ _ _ Hcut) as [Hdiv Hmod].
    fold total in Hdiv, Hmod. destruct Hcut as (Hjoin & Hfull & Hrest).
    rewrite Hout, Hdiv, Hmod. clear Hout out.
    assert (∀ c, c ∈ tail_chunk rest → 1 ≤ length c ≤ n) as Htail.
    { destruct rest; [by intros c ?%elem_of_nil|].
      intros c ->%list_elem_of_singleton. simpl in *. lia. }
    split; [|split; [|split]].
    + intros k c Hk. apply lookup_app_Some in Hk as [Hk|[Hge Hk]].
      * rewrite Forall_lookup in Hfull. rewrite (Hfull k c Hk). lia.
      * split; [by eapply Htail, list_elem_of_lookup_2|].
        rewrite length_app. intros Hlast.
        apply lookup_lt_Some in Hk. destruct rest; simpl in *; lia.
    + intros Hzero. apply nil_length_inv in Hzero as ->.
      simpl. by rewrite app_nil_r.
    + intros Hzero. rewrite Hzero in Hdiv, Hmod.
      rewrite Nat.Div0.div_0_l in Hdiv. rewrite Nat.Div0.mod_0_l in Hmod.
      symmetry in Hdiv, Hmod.
      by apply nil_length_inv in Hdiv as ->; apply nil_length_inv in Hmod as ->.
    + intros _. rewrite length_app. split.
      * intros Hzero. apply nil_length_inv in Hzero as ->. simpl. lia.
      * intros Hne. destruct rest; [done|]. simpl. lia.
  - destruct (starved_chunks n parts Hpos) as [Hfull [tail Hjoin]].
    unfold out. rewrite Hrun. clear out Hrun.
    set (out := collect parts _) in *.
    split; [|split; [done|split; [|lia]]].
    + intros k c Hk. rewrite Forall_lookup in Hfull.
      rewrite (Hfull k c Hk). lia.
    + intros Hzero. unfold total in Hzero.
      apply nil_length_inv in Hzero. rewrite Hzero in Hjoin.
      symmetry in Hjoin. apply app_eq_nil in Hjoin as [Hnil _].
      apply (f_equal length) in Hnil.
      rewrite (length_join_full n) in Hnil by done.
      apply nil_length_inv. simpl in Hnil. nia.
Qed.

(** The chunks of a run, fed to [chunkFrom] again: full chunks followed
    by at most one shorter one come out as they are. *)
Lemma rechunk_chunks iterable chunkSize parts n chunks rest :
  sync_source iterable parts → Forall is_view parts →
  is_chunkSize chunkSize n →
  toUint8Array <$> parts = chunks ++ tail_chunk rest →
  Forall (λ c, length c = n) chunks → length rest < n →
  (rest ≠ [] → n ≤ limit) →
  collect parts (chunkFrom zero limit iterable chunkSize)
  = chunks ++ tail_chunk rest.
Proof.
  intros Hsrc Hviews Hsize Hunits Hfull Hrest Hlim.
  assert (0 < n) as Hpos by (destruct Hsize as (? & ? & ? & ? & ?); done).
  destruct (run_shape iterable chunkSize parts n
              (chunkFrom zero limit iterable chunkSize) Hviews Hsize)
    as [[_ Hshape]|(Hbig & Hcut & _)]; [by left| |].
  - destruct (rechunked parts n _ Hviews Hpos Hshape)
      as (chunks' & rest' & -> & Hcut').
    rewrite Hunits in Hcut'.
    destruct (chunking_unique n (mjoin (chunks ++ tail_chunk rest)) chunks'
                (mjoin chunks ++ rest) chunks rest' rest) as [-> ->]; try done.
    by rewrite join_app, join_tail_chunk.
  - exfalso. rewrite starved_aligned in Hcut; [done|].
    rewrite Hunits. apply Forall_app. split.
    + eapply Forall_impl; [exact Hfull|]. intros c ->.
      apply Nat.Div0.mod_same.
    + destruct rest; [done|]. specialize (Hlim ltac:(done)). lia.
Qed.

(** C9. Re-chunking is idempotent: the chunks of a run of [chunkFrom],
    fed to [chunkFrom] again with the same chunk size, come out with the
    same bytes, chunk by chunk. *)
Theorem rechunk_idempotent iterable chunkSize parts n iterable' parts' :
  sync_source iterable parts → Forall is_view parts →
  is_chunkSize chunkSize n →
  sync_source iterable' parts' → Forall is_view parts' →
  toUint8Array <$> parts' = collect parts (chunkFrom zero limit iterable chunkSize) →
  collect parts' (chunkFrom zero limit iterable' chunkSize)
  = collect parts (chunkFrom zero limit iterable chunkSize).
Proof.
  intros Hsrc Hviews Hsize Hsrc' Hviews' Hfeed.
  assert (0 < n) as Hpos by (destruct Hsize as (? & ? & ? & ? & ?); done).
  destruct (run_shape iterable chunkSize parts n
              (chunkFrom zero limit iterable chunkSize) Hviews Hsize)
    as [[Hdone Hshape]|(Hbig & _ & Hrun)]; [by left| |].
  - destruct (rechunked parts n _ Hviews Hpos Hshape)
      as (chunks & rest & Hout & Hcut).
    rewrite Hout in Hfeed |- *.
    pose proof Hcut as (_ & Hfull & Hrest).
    apply (rechunk_chunks iterable' chunkSize parts' n); try done.
    intros Hne. destruct (Nat.le_gt_cases n limit) as [|Hbig]; [done|].
    exfalso. apply Hne.
    pose proof (run_bytes n (toUint8Array <$> parts) []
                  (toUint8Array <$> parts) [] [] Hpos ltac:(simpl; lia)
                  eq_refl) as Hcut'.
    cbn [length app] in Hcut'. rewrite (proj2 (Hdone Hbig)) in Hcut'.
    by destruct (chunking_unique n _ chunks _ _ rest [] eq_refl Hcut Hcut').
  - destruct (starved_chunks n parts Hpos) as [Hfull _].
    rewrite Hrun in Hfeed |- *.
    rewrite <- (app_nil_r (collect parts _)).
    apply (rechunk_chunks iterable' chunkSize parts' n _ []);
      try done; by rewrite app_nil_r.
Qed.

(** ** The single-buffer splitter *)

Lemma chunk_loop_lookup chunkSize len fuel : ∀ offset k,
  0 < chunkSize → len - offset ≤ fuel →
  chunk_loop fuel len chunkSize offset !! k
  = if offset + k * chunkSize <? len
    then Some (subarray len (offset + k * chunkSize)
                 (offset + k * chunkSize + chunkSize))
    else None.
Proof.
  induction fuel as [|fuel IH]; intros offset k Hcs Hfuel.
  - simpl. destruct (Nat.ltb_spec (offset + k * chunkSize) len); [lia|done].
  - simpl. destruct (Nat.ltb_spec offset len) as [Hlt|Hge].
    + destruct k as [|k].
      * simpl. rewrite Nat.add_0_r.
        by rewrite (proj2 (Nat.ltb_lt _ _) Hlt).
      * simpl lookup. rewrite IH by lia.
        by replace (offset + chunkSize + k * chunkSize)
          with (offset + S k * chunkSize) by lia.
    + destruct (Nat.ltb_spec (offset + k * chunkSize) len); [lia|done].
Qed.

(** C8. On a view of [L] bytes and a positive safe-integer chunk size,
    [chunk] throws nothing and yields, in this order, exactly the slices
    from [offset] to the smaller of [offset + chunkSize] and [L], for
    [offset] = 0, [chunkSize], 2·[chunkSize], ... while [offset < L];
    so it yields nothing when [L] is 0. *)
Theorem chunk_slices (data chunkSize : value A) n :
  is_view data → is_chunkSize chunkSize n →
  let L := length (toUint8Array data) in
  ∃ out, chunk data chunkSize = (out, None)
    ∧ (∀ k, k < length out ↔ k * n < L)
    ∧ (∀ k, k * n < L →
         out !! k = Some (Span (k * n) ((k * n + n) `min` L - k * n)))
    ∧ (L = 0 → out = []).
Proof.
  intros Hview Hsize L.
  destruct (is_chunkSize_valid _ _ Hsize) as [Hvalid Hn].
  assert (0 < n) as Hpos by (destruct Hsize as (? & ? & ? & ? & ?); done).
  unfold chunk. rewrite Hview, Hvalid, Hn. cbn [negb]. fold L.
  eexists. split; [done|].
  assert (∀ k, chunk_loop L L n 0 !! k
               = if k * n <? L
                 then Some (Span (k * n) ((k * n + n) `min` L - k * n))
                 else None) as Hlookup.
  { intros k. rewrite chunk_loop_lookup by lia. simpl.
    destruct (Nat.ltb_spec (k * n) L); [|done].
    unfold subarray. by rewrite (Nat.min_l (k * n)) by lia. }
  split; [|split].
  - intros k. rewrite <- lookup_lt_is_Some, Hlookup.
    destruct (Nat.ltb_spec (k * n) L).
    + split; [done|by eexists].
    + split; [by intros [? ?]|lia].
  - intros k Hk. rewrite Hlookup. by rewrite (proj2 (Nat.ltb_lt _ _) Hk).
  - intros ->. done.
Qed.
(** ** What the three functions throw, and when *)

(** C6, amended. Each of the three functions throws the [TypeError] of
    its validation exactly when: the data is not a view or the source does
    not pass the source-type check (this error wins over an invalid chunk
    size); or the chunk size is not a positive safe integer; or, for the
    two re-chunkers, an item pulled is not a view, an error signalled
    after the chunk size has been accepted, and only if the run has come
    to that item: when a [Uint8Array] of [chunkSize] bytes cannot be
    allocated, the run ends with a [RangeError], which is no [TypeError],
    on the first view that needs the carry buffer.  Nothing else is
    thrown.  [NaN], the infinities, numbers that are not positive, not
    integers or above the safe range are rejected. *)
Theorem invalid_argument_conditions :
  (∀ data chunkSize : value A,
     (¬ is_view data → chunk data chunkSize = ([], Some (TypeError msg_data)))
     ∧ (is_view data → ¬ positive_safe_integer chunkSize →
        chunk data chunkSize = ([], Some (TypeError msg_chunkSize)))
     ∧ (is_view data → positive_safe_integer chunkSize →
        (chunk data chunkSize).2 = None))
  ∧ (∀ iterable chunkSize : value A,
       ((∀ parts, ¬ sync_source iterable parts) →
        chunkFrom zero limit iterable chunkSize = ([], inl (TypeError msg_iterable)))
       ∧ ∀ parts, sync_source iterable parts →
           (¬ positive_safe_integer chunkSize →
            chunkFrom zero limit iterable chunkSize
            = ([], inl (TypeError msg_chunkSize)))
           ∧ ∀ n, is_chunkSize chunkSize n →
               (allocation_fails limit n parts →
                (chunkFrom zero limit iterable chunkSize).2 = inl RangeError)
               ∧ (¬ allocation_fails limit n parts → ¬ Forall is_view parts →
                  (chunkFrom zero limit iterable chunkSize).2
                  = inl (TypeError msg_part))
               ∧ (¬ allocation_fails limit n parts → Forall is_view parts →
                  ∃ st, (chunkFrom zero limit iterable chunkSize).2 = inr st))
  ∧ (∀ iterable chunkSize : value A,
       ((∀ parts, ¬ async_source iterable parts) →
        chunkFromAsync zero limit iterable chunkSize
        = ([], inl (TypeError msg_async_iterable)))
       ∧ ∀ parts, async_source iterable parts →
           (¬ positive_safe_integer chunkSize →
            chunkFromAsync zero limit iterable chunkSize
            = ([], inl (TypeError msg_chunkSize)))
           ∧ ∀ n, is_chunkSize chunkSize n →
               (allocation_fails limit n parts →
                (chunkFromAsync zero limit iterable chunkSize).2 = inl RangeError)
               ∧ (¬ allocation_fails limit n parts → ¬ Forall is_view parts →
                  (chunkFromAsync zero limit iterable chunkSize).2
                  = inl (TypeError msg_part))
               ∧ (¬ allocation_fails limit n parts → Forall is_view parts →
                  ∃ st, (chunkFromAsync zero limit iterable chunkSize).2 = inr st))
  ∧ (∀ x, x = NaN ∨ x = PosInfinity ∨ x = NegInfinity
          ∨ (∃ q, x = Finite q
                  ∧ ((q <= 0)%Q ∨ (∀ z, ¬ (q == inject_Z z)%Q)
                     ∨ (inject_Z MAX_SAFE_INTEGER < q)%Q)) →
          ¬ positive_safe_integer (A:=A) (VNumber x)).
Proof.
  assert (∀ (chunkSize : value A) parts
            (run : gen carry_state),
    run = (if invalid_chunkSize chunkSize
           then ([], inl (TypeError msg_chunkSize))
           else process_parts zero limit (chunkSize_to_nat chunkSize) 0 parts initial
                  ≫= flush) →
    (¬ positive_safe_integer chunkSize →
     run = ([], inl (TypeError msg_chunkSize)))
    ∧ ∀ n, is_chunkSize chunkSize n →
        (allocation_fails limit n parts → run.2 = inl RangeError)
        ∧ (¬ allocation_fails limit n parts → ¬ Forall is_view parts →
           run.2 = inl (TypeError msg_part))
        ∧ (¬ allocation_fails limit n parts → Forall is_view parts →
           ∃ st, run.2 = inr st)) as Hloop.
  { intros chunkSize parts run ->. split.
    { intros Hbad. by rewrite not_chunkSize_invalid. }
    intros n Hsize. destruct (is_chunkSize_valid _ _ Hsize) as [-> ->].
    assert (0 < n) as Hpos by (destruct Hsize as (? & ? & ? & ? & ?); done).
    pose proof (rechunk_outcome n parts Hpos) as Hend.
    destruct (process_parts zero limit n 0 parts initial ≫= flush).2
      as [[m| |]|st]; [| |done|].
    - destruct Hend as (-> & Hbad & Hfits). by repeat split.
    - by repeat split.
    - destruct Hend as [Hviews Hfits]. repeat split; try done. by eexists. }
  split; [|split; [|split]].
  - intros data chunkSize. unfold chunk, is_view.
    destruct (ArrayBuffer_isView data); cbn [negb].
    + split; [done|]. split.
      * intros _ Hbad. by rewrite not_chunkSize_invalid.
      * by intros _ [-> _]%positive_safe_integer_valid.
    + split; [done|]. by split.
  - intros iterable chunkSize. split; [apply chunkFrom_source_rejected|].
    intros parts Hsrc. by apply Hloop, chunkFrom_source_accepted.
  - intros iterable chunkSize. split; [apply chunkFromAsync_source_rejected|].
    intros parts Hsrc. by apply Hloop, chunkFromAsync_source_accepted.
  - intros x Hx [Hvalid _]%positive_safe_integer_valid.
    by rewrite rejected_numbers in Hvalid.
Qed.


(** C10. A string source: [chunkFrom] throws the source-type error, at
    once and whatever the chunk size; [chunkFromAsync] never throws its
    source-type error on a string, and on a string that is not empty,
    with a valid chunk size, it throws the per-item error on the first
    character, before yielding anything. *)
Theorem string_source s (chunkSize : value A) :
  chunkFrom zero limit (VString s) chunkSize = ([], inl (TypeError msg_iterable))
  ∧ (chunkFromAsync zero limit (VString s) chunkSize).2
    ≠ inl (TypeError msg_async_iterable)
  ∧ (s ≠ EmptyString → positive_safe_integer chunkSize →
     chunkFromAsync zero limit (VString s) chunkSize
     = ([], inl (TypeError msg_part))).
Proof.
  split; [by apply chunkFrom_source_rejected; intros parts [_ ?]|].
  assert (∃ parts, async_source (A:=A) (VString s) parts
                   ∧ (s ≠ EmptyString → ∃ c rest, parts = VString c :: rest))
    as (parts & Hsrc & Hchars).
  { eexists. split; [done|]. intros Hne. destruct s as [|c s]; [done|].
    csimpl. eauto. }
  rewrite (chunkFromAsync_source_accepted _ _ parts Hsrc). split.
  - destruct (invalid_chunkSize chunkSize) eqn:Hvalid; [done|].
    destruct (valid_is_chunkSize _ Hvalid) as (_ & _ & _ & Hpos & _).
    pose proof (rechunk_outcome _ parts Hpos) as Hend.
    destruct (process_parts zero limit _ 0 parts initial ≫= flush).2
      as [[m| |]|st]; try done.
    by destruct Hend as (-> & _).
  - intros Hne [-> _]%positive_safe_integer_valid.
    by destruct (Hchars Hne) as (c & rest & ->).
Qed.

(** ** The carry buffer is written in bounds *)

(** C7. In any state reached from the start of a run of [chunkFrom] or
    of [chunkFromAsync], when the accumulate branch is taken
    ([carryLength > 0] and the unit shorter than
    [chunkSize - carryLength]), the carry buffer is allocated with
    [chunkSize] bytes, [carryLength + buffer.length < chunkSize], and
    [carryBuffer.set(buffer, carryLength)] copies the unit without a
    [RangeError]: the body of either loop ends normally with the unit
    appended to the pending bytes. *)
Theorem carry_write_in_bounds chunkSize parts evs st i k buffer :
  0 < chunkSize →
  process_parts zero limit chunkSize 0 parts initial = (evs, inr st)
  ∨ async_process_parts zero limit chunkSize 0 parts initial = (evs, inr st) →
  buffer ≠ [] → 0 < carryLength st →
  length buffer < chunkSize - carryLength st →
  ∃ carry,
    carryBuffer st = Some carry ∧ length carry = chunkSize
    ∧ carryLength st + length buffer < chunkSize
    ∧ typed_set CarryBuffer (Input i) carry buffer (carryLength st)
      = ([Copy (Input i) CarryBuffer buffer],
         inr (take (carryLength st) carry ++ buffer
                ++ drop (carryLength st + length buffer) carry))
    ∧ process_part zero limit chunkSize i (VView k buffer) st
      = ([Copy (Input i) CarryBuffer buffer],
         inr (CarryState
                (Some (take (carryLength st) carry ++ buffer
                         ++ drop (carryLength st + length buffer) carry))
                (carryLength st + length buffer)))
    ∧ async_process_part zero limit chunkSize i (VView k buffer) st
      = process_part zero limit chunkSize i (VView k buffer) st.
Proof.
  intros Hcs Hrun Hne Hpending Hshort.
  assert (process_parts zero limit chunkSize 0 parts initial = (evs, inr st))
    as Hsync by (by destruct Hrun as [?|Hrun];
                   [|rewrite async_process_parts_eq in Hrun]).
  clear Hrun. rename Hsync into Hrun.
  pose proof (process_parts_outcome chunkSize parts Hcs) as Hend.
  rewrite Hrun in Hend. destruct Hend as (_ & _ & p & Hp).
  destruct Hp as (Hlen & Hlt & Hbuf).
  destruct (carryBuffer st) as [carry|] eqn:Hcarry.
  2: { subst p. simpl in Hlen. lia. }
  destruct Hbuf as [Hcap _]. exists carry.
  split; [done|]. split; [done|]. split; [lia|].
  assert (typed_set CarryBuffer (Input i) carry buffer (carryLength st)
          = ([Copy (Input i) CarryBuffer buffer],
             inr (take (carryLength st) carry ++ buffer
                    ++ drop (carryLength st + length buffer) carry))) as Hset
    by (apply typed_set_fits; lia).
  split; [done|]. split; [|apply async_process_part_eq].
  unfold process_part. cbn [ArrayBuffer_isView negb toUint8Array].
  destruct (Nat.eqb_spec (length buffer) 0) as [Hnil|_];
    [by apply nil_length_inv in Hnil|].
  rewrite (proj2 (Nat.ltb_lt _ _) Hpending), (proj2 (Nat.leb_gt _ _) Hshort).
  rewrite Hcarry. cbn [defined mbind gen_bind mret gen_ret].
  by rewrite Hset.
Qed.

(** ** Copies *)

Lemma copied_app (evs1 evs2 : list event) :
  copied (evs1 ++ evs2) = copied evs1 ++ copied evs2.
Proof. unfold copied. by rewrite omap_app, join_app. Qed.

Lemma copied_from_input_app (evs1 evs2 : list event) :
  copied_from_input (evs1 ++ evs2)
  = copied_from_input evs1 ++ copied_from_input evs2.
Proof. unfold copied_from_input. by rewrite omap_app, join_app. Qed.

Lemma copied_from_carry_app (evs1 evs2 : list event) :
  copied_from_carry (evs1 ++ evs2)
  = copied_from_carry evs1 ++ copied_from_carry evs2.
Proof. unfold copied_from_carry. by rewrite omap_app, join_app. Qed.

Lemma copied_to_carry_app (evs1 evs2 : list event) :
  copied_to_carry (evs1 ++ evs2)
  = copied_to_carry evs1 ++ copied_to_carry evs2.
Proof. unfold copied_to_carry. by rewrite omap_app, join_app. Qed.

Lemma sliced_app units (evs1 evs2 : list event) :
  sliced units (evs1 ++ evs2) = sliced units evs1 ++ sliced units evs2.
Proof. unfold sliced. by rewrite omap_app, join_app. Qed.

Lemma copies_merge units i p t d :
  let evs : list event :=
    [Copy CarryBuffer Out p; Copy (Input i) Out t; Yield (Owned d)] in
  copied evs = p ++ t ∧ copied_from_input evs = t
  ∧ copied_from_carry evs = p ∧ copied_to_carry evs = []
  ∧ sliced units evs = [].
Proof.
  unfold copied, copied_from_input, copied_from_carry, copied_to_carry, sliced.
  simpl. by rewrite !app_nil_r.
Qed.

Lemma omap_slices_none {X} (f : event → option X) chunkSize i offset n :
  (∀ c, f (Yield c) = None) → omap f (slices chunkSize i offset n) = [].
Proof.
  intros Hf. unfold slices. induction (seq 0 n) as [|m ms IH]; [done|].
  csimpl. by rewrite Hf.
Qed.

Lemma sliced_slices units chunkSize i offset n b :
  units !! i = Some b →
  sliced units (slices chunkSize i offset n)
  = take (n * chunkSize) (drop offset b).
Proof.
  intros Hb. rewrite <- join_windows. unfold sliced, windows, slices. f_equal.
  induction (seq 0 n) as [|m ms IH]; [done|].
  csimpl. rewrite Hb. by f_equal.
Qed.

Lemma copies_slices chunkSize i offset n :
  copied (slices chunkSize i offset n) = []
  ∧ copied_from_input (slices chunkSize i offset n) = []
  ∧ copied_from_carry (slices chunkSize i offset n) = []
  ∧ copied_to_carry (slices chunkSize i offset n) = [].
Proof.
  unfold copied, copied_from_input, copied_from_carry, copied_to_carry.
  by rewrite !omap_slices_none.
Qed.

Lemma copies_save units i r :
  copied (save i r) = r ∧ copied_from_input (save i r) = r
  ∧ copied_from_carry (save i r) = [] ∧ copied_to_carry (save i r) = r
  ∧ sliced units (save i r) = [].
Proof.
  destruct r; [done|].
  unfold copied, copied_from_input, copied_from_carry, copied_to_carry, sliced.
  simpl. by rewrite app_nil_r.
Qed.

(** What one item adds to each of the tallies. *)
Lemma part_copies chunkSize i p b units :
  0 < chunkSize → length p < chunkSize → units !! i = Some b →
  let evs := (part_summary chunkSize i p b).1 in
  let p' := (part_summary chunkSize i p b).2 in
  copied_from_input evs ++ sliced units evs ≡ₚ b
  ∧ copied_from_carry evs ++ p' = p ++ copied_to_carry evs
  ∧ copied_to_carry evs `sublist_of` copied_from_input evs
  ∧ copied evs ≡ₚ copied_from_input evs ++ copied_from_carry evs.
Proof.
  intros Hcs Hp Hb.
  destruct (decide (b = [])) as [->|Hne].
  { rewrite part_summary_nil. simpl. by rewrite app_nil_r. }
  destruct (decide (p = [])) as [->|Hpne].
  - rewrite part_summary_direct by done. cbn [fst snd].
    set (n := length b / chunkSize).
    destruct (copies_slices chunkSize i 0 n) as (Hs1 & Hs2 & Hs3 & Hs4).
    destruct (copies_save units i (drop (n * chunkSize) b))
      as (Hr1 & Hr2 & Hr3 & Hr4 & Hr5).
    rewrite copied_app, copied_from_input_app, copied_from_carry_app,
      copied_to_carry_app, sliced_app.
    rewrite Hs1, Hs2, Hs3, Hs4, Hr1, Hr2, Hr3, Hr4, Hr5.
    rewrite (sliced_slices _ _ _ _ _ b), drop_0 by done.
    rewrite !app_nil_l, !app_nil_r. split; [|done].
    by rewrite Permutation_app_comm, take_drop.
  - destruct (Nat.le_gt_cases (chunkSize - length p) (length b)) as [Hle|Hgt].
    + rewrite part_summary_merge by done. cbn [fst snd].
      set (needed := chunkSize - length p).
      set (n := (length b - needed) / chunkSize).
      destruct (copies_slices chunkSize i needed n) as (Hs1 & Hs2 & Hs3 & Hs4).
      destruct (copies_save units i (drop (needed + n * chunkSize) b))
        as (Hr1 & Hr2 & Hr3 & Hr4 & Hr5).
      destruct (copies_merge units i p (take needed b) (p ++ take needed b))
        as (Hm1 & Hm2 & Hm3 & Hm4 & Hm5).
      rewrite !copied_app, !copied_from_input_app, !copied_from_carry_app,
        !copied_to_carry_app, !sliced_app.
      rewrite Hs1, Hs2, Hs3, Hs4, Hr1, Hr2, Hr3, Hr4, Hr5,
        Hm1, Hm2, Hm3, Hm4, Hm5.
      rewrite (sliced_slices _ _ _ _ _ b) by done.
      rewrite !app_nil_l, !app_nil_r. split; [|split; [done|split]].
      * rewrite <- (take_drop needed b) at 4.
        rewrite <- (take_drop (n * chunkSize) (drop needed b)) at 2.
        rewrite drop_drop. solve_Permutation.
      * by apply sublist_inserts_l.
      * solve_Permutation.
    + rewrite part_summary_accumulate by done.
      unfold copied, copied_from_input, copied_from_carry, copied_to_carry,
        sliced.
      simpl. by rewrite !app_nil_r.
Qed.

(** The tallies of a whole run. *)
Lemma run_copies chunkSize all_units units : ∀ pre p,
  0 < chunkSize → length p < chunkSize → all_units = pre ++ units →
  let evs := (run_summary chunkSize (length pre) p units).1 in
  let p' := (run_summary chunkSize (length pre) p units).2 in
  copied_from_input evs ++ sliced all_units evs ≡ₚ mjoin units
  ∧ copied_from_carry evs ++ p' = p ++ copied_to_carry evs
  ∧ copied_to_carry evs `sublist_of` copied_from_input evs
  ∧ copied evs ≡ₚ copied_from_input evs ++ copied_from_carry evs.
Proof.
  induction units as [|b units IH]; intros pre p Hcs Hp Hall.
  { simpl. by rewrite app_nil_r. }
  assert (all_units !! length pre = Some b) as Hb
    by (subst; apply list_lookup_middle; done).
  destruct (part_copies chunkSize (length pre) p b all_units Hcs Hp Hb)
    as (Hin1 & Hcarry1 & Hsub1 & Hall1).
  destruct (part_bytes chunkSize (length pre) p b all_units [] Hcs Hp Hb)
    as (_ & _ & Hp1).
  destruct (IH (pre ++ [b]) (part_summary chunkSize (length pre) p b).2
              Hcs Hp1) as (Hin2 & Hcarry2 & Hsub2 & Hall2).
  { by rewrite <- app_assoc. }
  rewrite length_app, Nat.add_1_r in Hin2, Hcarry2, Hsub2, Hall2.
  cbn [run_summary fst snd].
  set (evs1 := (part_summary chunkSize (length pre) p b).1) in *.
  set (evs2 := (run_summary chunkSize (S (length pre))
                  (part_summary chunkSize (length pre) p b).2 units).1) in *.
  rewrite copied_app, copied_from_input_app, copied_from_carry_app,
    copied_to_carry_app, sliced_app.
  split; [|split; [|split]].
  - simpl. rewrite <- Hin1, <- Hin2. solve_Permutation.
  - rewrite <- app_assoc, Hcarry2, !app_assoc. by f_equal.
  - by apply sublist_app.
  - rewrite Hall1, Hall2. solve_Permutation.
Qed.

Lemma copies_last_chunk units p :
  copied (last_chunk p) = [] ∧ copied_from_input (last_chunk p) = []
  ∧ copied_from_carry (last_chunk p) = [] ∧ sliced units (last_chunk p) = [].
Proof. by destruct p. Qed.

(** C3, amended. Over valid input units with a positive safe-integer
    chunk size, label the bytes so that they are pairwise distinct.  Then
    in a run of [chunkFrom] or [chunkFromAsync] no byte is copied out of
    its input unit more than once, and none out of the carry buffer more
    than once; there are no other copies, and a byte copied out of the
    carry buffer is one that was copied into it from its unit.  So a byte
    is copied at most twice: into the carry buffer, then from it into the
    merged chunk.  A byte yielded through a direct slice is not copied at
    all. *)
Theorem copies_per_byte iterable chunkSize parts n (run : gen carry_state) :
  Forall is_view parts → is_chunkSize chunkSize n →
  NoDup (mjoin (toUint8Array <$> parts)) →
  sync_source iterable parts ∧ run = chunkFrom zero limit iterable chunkSize
  ∨ async_source iterable parts ∧ run = chunkFromAsync zero limit iterable chunkSize →
  NoDup (copied_from_input run.1)
  ∧ NoDup (copied_from_carry run.1)
  ∧ copied run.1 ≡ₚ copied_from_input run.1 ++ copied_from_carry run.1
  ∧ copied_from_carry run.1 ⊆ copied_from_input run.1
  ∧ (∀ x, x ∈ sliced (toUint8Array <$> parts) run.1 → x ∉ copied run.1).
Proof.
  intros Hviews Hsize Hdistinct Hrun.
  assert (0 < n) as Hpos by (destruct Hsize as (? & ? & ? & ? & ?); done).
  set (units := toUint8Array <$> parts) in *.
  destruct (run_shape iterable chunkSize parts n run Hviews Hsize Hrun)
    as [[_ (st & -> & _)]|(_ & _ & ->)].
  2: { cbn [fst]. fold units.
       destruct (slice_events_copy_nothing _ (starved_slices n units 0))
         as (-> & -> & -> & _).
       split; [constructor|]. split; [constructor|]. split; [done|].
       split; [done|]. intros x _. apply not_elem_of_nil. }
  fold units.
  destruct (run_copies n units units [] []) as (Hin & Hcarry & Hsub & Hall);
    [done|simpl; lia|done|].
  cbn [length] in Hin, Hcarry, Hsub, Hall.
  destruct (copies_last_chunk units (run_summary n 0 [] units).2)
    as (Hl1 & Hl2 & Hl3 & Hl4).
  cbn [fst].
  rewrite copied_app, copied_from_input_app, copied_from_carry_app, sliced_app,
    Hl1, Hl2, Hl3, Hl4, !app_nil_r.
  set (evs := (run_summary n 0 [] units).1) in *.
  rewrite <- Hin in Hdistinct.
  apply NoDup_app in Hdistinct as (Hnodup & Hdisjoint & _).
  assert (copied_from_carry evs `sublist_of` copied_from_input evs) as Hcarried.
  { etrans; [|exact Hsub]. simpl in Hcarry. rewrite <- Hcarry.
    apply sublist_inserts_r. done. }
  split; [done|]. split; [by eapply sublist_NoDup|]. split; [done|].
  split; [by apply sublist_subseteq|].
  intros x Hsliced Hcopied. rewrite Hall in Hcopied.
  apply elem_of_app in Hcopied as [Hx|Hx].
  - by apply (Hdisjoint x).
  - apply (Hdisjoint x); [|done]. by eapply elem_of_sublist.
Qed.

(** ** Zero-copy chunks *)

Lemma unit_start_S (units : list (list A)) i b :
  units !! i = Some b →
  unit_start units (S i) = unit_start units i + length b.
Proof.
  intros Hb. unfold unit_start.
  rewrite (take_S_r _ _ _ Hb), join_app, length_app. simpl.
  by rewrite app_nil_r.
Qed.

Lemma unit_start_mono (units : list (list A)) i j :
  i ≤ j → unit_start units i ≤ unit_start units j.
Proof.
  intros Hle. unfold unit_start.
  replace j with (i + (j - i)) by lia.
  rewrite <- take_take_drop, join_app, length_app. lia.
Qed.

Lemma unit_start_middle (pre units : list (list A)) :
  unit_start (pre ++ units) (length pre) = length (mjoin pre).
Proof. unfold unit_start. by rewrite take_app_length. Qed.

Lemma length_yields_part chunkSize i p b :
  0 < chunkSize → length p < chunkSize →
  let part := part_summary chunkSize i p b in
  length (yields part.1) * chunkSize + length part.2 = length p + length b.
Proof.
  intros Hcs Hp part.
  destruct (part_bytes chunkSize i p b (<[i:=b]> (replicate (S i) [])) []
              Hcs Hp) as (Hjoin & Hfull & _).
  { apply list_lookup_insert_eq. rewrite length_replicate. lia. }
  apply (f_equal length) in Hjoin.
  rewrite !length_app, (length_join_full chunkSize) in Hjoin by done.
  unfold bytes_of in Hjoin. by rewrite length_fmap in Hjoin.
Qed.

Lemma lookup_yields_slices chunkSize i offset n m c :
  yields (slices chunkSize i offset n) !! m = Some c →
  m < n ∧ c = InputSlice i (Span (offset + m * chunkSize) chunkSize).
Proof.
  rewrite yields_slices, list_lookup_fmap.
  destruct (seq 0 n !! m) as [m'|] eqn:Hm; [|done].
  apply lookup_seq in Hm as [-> Hlt]. by intros [= <-].
Qed.

Lemma part_located chunkSize i p b units K :
  0 < chunkSize → length p < chunkSize → units !! i = Some b →
  K * chunkSize + length p = unit_start units i →
  ∀ m c, yields (part_summary chunkSize i p b).1 !! m = Some c →
    located chunkSize units ((K + m) * chunkSize) c.
Proof.
  intros Hcs Hp Hb Hpos m c.
  destruct (decide (b = [])) as [->|Hne]; [by rewrite part_summary_nil|].
  destruct (decide (p = [])) as [->|Hpne].
  - rewrite part_summary_direct by done. cbn [fst].
    rewrite yields_app, yields_save, app_nil_r.
    intros [Hm ->]%lookup_yields_slices.
    pose proof (div_bounds (length b) chunkSize Hcs).
    exists b. simpl in *. split; [done|]. split; [done|]. split; nia.
  - destruct (Nat.le_gt_cases (chunkSize - length p) (length b)) as [Hle|Hgt].
    + rewrite part_summary_merge by done. cbn [fst].
      set (needed := chunkSize - length p).
      pose proof (div_bounds (length b - needed) chunkSize Hcs).
      rewrite yields_app, yields_app, yields_save, app_nil_r.
      assert (0 < length p) by (destruct p; [done|simpl; lia]).
      destruct m as [|m].
      * intros [= <-]. split.
        -- rewrite length_app, length_take. lia.
        -- exists i. lia.
      * change (yields [Copy CarryBuffer Out p; Copy (Input i) Out (take needed b);
                        Yield (Owned (p ++ take needed b))])
          with [Owned (A:=A) (p ++ take needed b)].
        cbn [app lookup list_lookup].
        intros [Hm ->]%lookup_yields_slices.
        exists b. simpl. split; [done|]. split; [done|]. split; nia.
    + by rewrite part_summary_accumulate.
Qed.

Lemma run_located chunkSize all_units units : ∀ pre p K,
  0 < chunkSize → length p < chunkSize → all_units = pre ++ units →
  K * chunkSize + length p = length (mjoin pre) →
  ∀ m c, yields (run_summary chunkSize (length pre) p units).1 !! m = Some c →
    located chunkSize all_units ((K + m) * chunkSize) c.
Proof.
  induction units as [|b units IH]; intros pre p K Hcs Hp Hall Hpos m c;
    [done|].
  assert (all_units !! length pre = Some b) as Hb
    by (subst; apply list_lookup_middle; done).
  cbn [run_summary fst]. rewrite yields_app.
  intros [Hm|[Hge Hm]]%lookup_app_Some.
  - apply (part_located chunkSize (length pre) p b); try done.
    subst all_units. by rewrite unit_start_middle.
  - pose proof (length_yields_part chunkSize (length pre) p b Hcs Hp) as Hcount.
    destruct (part_bytes chunkSize (length pre) p b all_units [] Hcs Hp Hb)
      as (_ & _ & Hp1).
    cbn zeta in Hcount.
    set (part := part_summary chunkSize (length pre) p b) in *.
    specialize (IH (pre ++ [b]) part.2 (K + length (yields part.1)) Hcs Hp1).
    rewrite length_app, Nat.add_1_r in IH.
    replace (K + m) with (K + length (yields part.1)
                          + (m - length (yields part.1))) by lia.
    apply IH; [by rewrite <- app_assoc| |done].
    rewrite join_app, length_app. simpl. rewrite app_nil_r. lia.
Qed.

Lemma read_span_insert (bytes : list A) s j x :
  span_begin s ≤ j < span_begin s + span_size s → j < length bytes →
  read_span (<[j:=x]> bytes) s !! (j - span_begin s) = Some x.
Proof.
  intros Hj Hlen. unfold read_span.
  rewrite lookup_take_lt, lookup_drop by lia.
  replace (span_begin s + (j - span_begin s)) with j by lia.
  by apply list_lookup_insert_eq.
Qed.

Lemma located_full chunkSize (units : list (list A)) carry pos c :
  located chunkSize units pos c →
  length (chunk_bytes units carry c) = chunkSize.
Proof.
  destruct c as [i s|bytes|s]; [|by intros [? _]|done].
  intros (b & Hb & Hsize & Hfit & _). simpl. rewrite Hb. simpl.
  unfold read_span. rewrite length_take, length_drop. lia.
Qed.

(** X9. In a run of either re-chunker over valid units, a window on the
    carry buffer is only ever the last event: nothing is written to the
    carry buffer after a chunk that is a window on it has been yielded,
    so a consumer reads the same bytes through it whenever it reads. *)
Lemma carry_slice_is_last iterable chunkSize parts n (run : gen carry_state) k s :
  Forall is_view parts → is_chunkSize chunkSize n →
  sync_source iterable parts ∧ run = chunkFrom zero limit iterable chunkSize
  ∨ async_source iterable parts ∧ run = chunkFromAsync zero limit iterable chunkSize →
  run.1 !! k = Some (Yield (CarrySlice s)) → S k = length run.1.
Proof.
  intros Hviews Hsize Hrun Hk.
  assert (0 < n) as Hpos by (destruct Hsize as (? & ? & ? & ? & ?); done).
  set (units := toUint8Array <$> parts) in *.
  destruct (run_shape iterable chunkSize parts n run Hviews Hsize Hrun)
    as [[_ (st & -> & _)]|(_ & _ & ->)].
  2: { exfalso. cbn [fst] in Hk.
       pose proof (starved_slices n (toUint8Array <$> parts) 0) as Hslices.
       rewrite Forall_lookup in Hslices.
       by destruct (Hslices k _ Hk) as (? & ? & ?). }
  fold units in Hk |- *.
  cbn [fst] in *. rewrite length_app.
  apply lookup_app_Some in Hk as [Hk|[Hge Hk]].
  - exfalso.
    assert (CarrySlice s ∈ yields (run_summary n 0 [] units).1) as Hin.
    { apply list_elem_of_omap. exists (Yield (CarrySlice s)).
      split; [by eapply list_elem_of_lookup_2|done]. }
    apply list_elem_of_lookup_1 in Hin as [m Hm].
    exact (run_located n units units [] [] 0 Hpos
             ltac:(simpl; lia) eq_refl eq_refl m _ Hm).
  - apply lookup_lt_Some in Hk as Hlt.
    destruct (run_summary n 0 [] units).2; simpl in *; lia.
Qed.

(** C4, amended. Every chunk yielded by [chunk] is a window on the data:
    a byte of the data written within the window after the chunk was
    yielded is read through the chunk.  In a run of [chunkFrom] or
    [chunkFromAsync] over valid input, a chunk of [chunkSize] bytes whose
    bytes lie within one input unit is a window on that unit, at the
    place of those bytes, and a byte of the unit written within the
    window is read through the chunk.  A chunk shorter than [chunkSize]
    (the final one) is a window on the carry buffer, not on an input
    unit. *)
Theorem zero_copy_chunks :
  (∀ (data chunkSize : value A) n s,
     is_view data → is_chunkSize chunkSize n →
     s ∈ (chunk data chunkSize).1 →
     span_begin s + span_size s ≤ length (toUint8Array data)
     ∧ ∀ j x, span_begin s ≤ j < span_begin s + span_size s →
         read_span (<[j:=x]> (toUint8Array data)) s !! (j - span_begin s)
         = Some x)
  ∧ (∀ iterable chunkSize parts n (run : gen carry_state) k c,
       Forall is_view parts → is_chunkSize chunkSize n →
       sync_source iterable parts ∧ run = chunkFrom zero limit iterable chunkSize
       ∨ async_source iterable parts
         ∧ run = chunkFromAsync zero limit iterable chunkSize →
       yields run.1 !! k = Some c →
       let units := toUint8Array <$> parts in
       (∀ i b, units !! i = Some b →
          length (chunk_bytes units (final_carry run) c) = n →
          unit_start units i ≤ k * n →
          k * n + n ≤ unit_start units i + length b →
          let offset := k * n - unit_start units i in
          c = InputSlice i (Span offset n)
          ∧ ∀ carry j x, offset ≤ j < offset + n →
              chunk_bytes (<[i:=<[j:=x]> b]> units) carry c !! (j - offset)
              = Some x)
       ∧ (length (chunk_bytes units (final_carry run) c) < n →
          ∃ len, c = CarrySlice (Span 0 len))).
Proof.
  split.
  - intros data chunkSize n s Hview Hsize.
    destruct (is_chunkSize_valid _ _ Hsize) as [Hvalid Hn].
    assert (0 < n) as Hpos by (destruct Hsize as (? & ? & ? & ? & ?); done).
    unfold chunk. rewrite Hview, Hvalid, Hn. cbn [negb fst].
    set (bytes := toUint8Array data).
    intros [k Hk]%list_elem_of_lookup_1.
    rewrite chunk_loop_lookup in Hk by lia. simpl in Hk.
    destruct (Nat.ltb_spec (k * n) (length bytes)) as [Hlt|]; [|done].
    injection Hk as <-. unfold subarray.
    split; [simpl; lia|]. intros j x Hj. apply read_span_insert; simpl in *; lia.
  - intros iterable chunkSize parts n run k c Hviews Hsize Hrun Hk units.
    assert (0 < n) as Hpos by (destruct Hsize as (? & ? & ? & ? & ?); done).
    assert (located n units (k * n) c
            ∨ ∃ len, c = CarrySlice (Span 0 len) ∧ len < n)
      as [Hloc|(len & -> & Hlen)].
    { destruct (run_shape iterable chunkSize parts n run Hviews Hsize Hrun)
        as [[_ (st & -> & Hst)]|(_ & _ & ->)]; cbn [fst] in Hk; fold units in Hk.
      - fold units in Hst. rewrite yields_app in Hk.
        set (p := (run_summary n 0 [] units).2) in *.
        assert (length p < n) as Hp by (by destruct Hst as (_ & ? & _)).
        apply lookup_app_Some in Hk as [Hk|[_ Hk]].
        + left.
          exact (run_located n units units [] [] 0 Hpos
                   ltac:(simpl; lia) eq_refl eq_refl k c Hk).
        + right. exists (length p). split; [|done].
          destruct p; [done|]. simpl in Hk.
          by apply list_lookup_singleton_Some in Hk as [_ <-].
      - left. destruct (starved_prefix n units 0 Hpos) as (later & Heq & _).
        apply (run_located n units units [] [] 0 Hpos
                 ltac:(simpl; lia) eq_refl eq_refl k c).
        cbn [length]. rewrite Heq, yields_app. by apply lookup_app_l_Some. }
    + split; [|intros Hshort;
               rewrite (located_full _ _ _ _ _ Hloc) in Hshort; lia].
      intros i b Hb _ Hstart Hend offset.
      pose proof (unit_start_S units i b Hb) as HS.
      destruct c as [i' s|bytes|s]; [|exfalso|done].
      * destruct Hloc as (b' & Hb' & Hsize' & Hfit & Hat).
        pose proof (unit_start_S units i' b' Hb') as HS'.
        assert (i' = i) as ->.
        { destruct (Nat.lt_trichotomy i' i) as [Hlt|[?|Hgt]]; [|done|].
          - pose proof (unit_start_mono units (S i') i ltac:(lia)). lia.
          - pose proof (unit_start_mono units (S i) i' ltac:(lia)). lia. }
        assert (b' = b) as -> by congruence.
        assert (s = Span offset n) as ->.
        { destruct s as [sb ss]. simpl in *. unfold offset. f_equal; lia. }
        split; [done|]. intros carry j x Hj. simpl.
        rewrite list_lookup_insert_eq by (by eapply lookup_lt_Some).
        apply (read_span_insert b (Span offset n)); simpl in *; lia.
      * destruct Hloc as (_ & j & Hj).
        destruct (Nat.le_gt_cases j i) as [Hle|Hgt].
        -- pose proof (unit_start_mono units j i Hle). lia.
        -- pose proof (unit_start_mono units (S i) j ltac:(lia)). lia.
    + split; [|by eauto].
      intros i b _ Hfull. simpl in Hfull. unfold read_span in Hfull.
      rewrite length_take in Hfull. simpl in Hfull. lia.
Qed.

(** ** Further properties of the splitter *)

Lemma chunk_loop_chunking chunkSize (l : list A) fuel : ∀ offset,
  0 < chunkSize → length l - offset ≤ fuel →
  ∃ chunks rest,
    read_span l <$> chunk_loop fuel (length l) chunkSize offset
    = chunks ++ tail_chunk rest
    ∧ chunking chunkSize (drop offset l) chunks rest.
Proof.
  induction fuel as [|fuel IH]; intros offset Hcs Hfuel.
  { exists [], []. split; [done|]. rewrite drop_ge by lia. by repeat split. }
  cbn [chunk_loop]. destruct (Nat.ltb_spec offset (length l)) as [Hlt|Hge].
  2: { exists [], []. split; [done|]. rewrite drop_ge by lia. by repeat split. }
  rewrite fmap_cons. unfold read_span at 1, subarray.
  cbn [span_begin span_size]. rewrite (Nat.min_l offset) by lia.
  destruct (Nat.le_gt_cases (offset + chunkSize) (length l)) as [Hfit|Hshort].
  - destruct (IH (offset + chunkSize) Hcs ltac:(lia))
      as (chunks & rest & -> & Hjoin & Hfull & Hrest).
    rewrite Nat.min_l by lia.
    replace (offset + chunkSize - offset) with chunkSize by lia.
    exists (take chunkSize (drop offset l) :: chunks), rest.
    split; [done|]. split; [|split; [|done]].
    + simpl. rewrite <- app_assoc, Hjoin, <- drop_drop. apply take_drop.
    + constructor; [|done]. rewrite length_take, length_drop. lia.
  - rewrite Nat.min_r by lia.
    assert (chunk_loop fuel (length l) chunkSize (offset + chunkSize) = [])
      as ->.
    { destruct fuel; [done|]. simpl.
      by destruct (Nat.ltb_spec (offset + chunkSize) (length l)); [lia|]. }
    exists [], (drop offset l).
    rewrite take_ge by (rewrite length_drop; lia).
    assert (drop offset l ≠ []) as Hne.
    { intros Hnil%(f_equal length). rewrite length_drop in Hnil.
      simpl in Hnil. lia. }
    split; [by destruct (drop offset l)|].
    split; [done|]. split; [done|]. rewrite length_drop. lia.
Qed.

(** The bytes read through the views of [chunk], on valid arguments. *)
Lemma chunk_bytes_chunking (data chunkSize : value A) n :
  is_view data → is_chunkSize chunkSize n →
  ∃ chunks rest,
    read_span (toUint8Array data) <$> (chunk data chunkSize).1
    = chunks ++ tail_chunk rest
    ∧ chunking n (toUint8Array data) chunks rest.
Proof.
  intros Hview Hsize.
  destruct (is_chunkSize_valid _ _ Hsize) as [Hvalid Hn].
  assert (0 < n) as Hpos by (destruct Hsize as (? & ? & ? & ? & ?); done).
  unfold chunk. rewrite Hview, Hvalid, Hn. cbn [negb fst].
  destruct (chunk_loop_chunking n (toUint8Array data)
              (length (toUint8Array data)) 0 Hpos ltac:(lia))
    as (chunks & rest & Hout & Hcut).
  rewrite drop_0 in Hcut. eauto.
Qed.

(** X1. [chunk] loses nothing: on a view and a positive safe-integer
    chunk size, the bytes read through the views it yields, concatenated
    in order, are the bytes of the data. *)
Theorem chunk_roundtrip (data chunkSize : value A) n :
  is_view data → is_chunkSize chunkSize n →
  mjoin (read_span (toUint8Array data) <$> (chunk data chunkSize).1)
  = toUint8Array data.
Proof.
  intros Hview Hsize.
  destruct (chunk_bytes_chunking data chunkSize n Hview Hsize)
    as (chunks & rest & -> & <- & _).
  by rewrite join_app, join_tail_chunk.
Qed.

(** The chunks of a run of either re-chunker that ends normally, as
    bytes. *)
Lemma valid_run_chunks iterable chunkSize parts n (run : gen carry_state) :
  Forall is_view parts → is_chunkSize chunkSize n →
  sync_source iterable parts ∧ run = chunkFrom zero limit iterable chunkSize
  ∨ async_source iterable parts ∧ run = chunkFromAsync zero limit iterable chunkSize →
  n ≤ limit ∨ is_Some (maybe inr run.2) →
  ∃ chunks rest,
    collect parts run = chunks ++ tail_chunk rest
    ∧ chunking n (mjoin (toUint8Array <$> parts)) chunks rest.
Proof.
  intros Hviews Hsize Hrun Hends.
  assert (0 < n) as Hpos by (destruct Hsize as (? & ? & ? & ? & ?); done).
  apply (rechunked parts n run Hviews Hpos).
  destruct (run_shape iterable chunkSize parts n run Hviews Hsize Hrun)
    as [[_ Hshape]|(Hbig & _ & ->)]; [done|].
  destruct Hends as [?|[? ?]]; [lia|done].
Qed.

(** X2. Re-chunking a sequence of units is splitting their
    concatenation: when a [Uint8Array] of [chunkSize] bytes can be
    allocated, the chunks of [chunkFrom] or [chunkFromAsync] over valid
    units hold, one by one, the bytes of the views [chunk] yields on a
    single view holding all the units' bytes. *)
Theorem rechunk_is_chunk_of_concat iterable chunkSize parts n
    (run : gen carry_state) (data : value A) :
  Forall is_view parts → is_chunkSize chunkSize n → n ≤ limit →
  sync_source iterable parts ∧ run = chunkFrom zero limit iterable chunkSize
  ∨ async_source iterable parts ∧ run = chunkFromAsync zero limit iterable chunkSize →
  is_view data → toUint8Array data = mjoin (toUint8Array <$> parts) →
  collect parts run
  = read_span (toUint8Array data) <$> (chunk data chunkSize).1.
Proof.
  intros Hviews Hsize Hlim Hrun Hview Hdata.
  destruct (valid_run_chunks iterable chunkSize parts n run Hviews Hsize Hrun
              (or_introl Hlim))
    as (chunks & rest & -> & Hcut).
  destruct (chunk_bytes_chunking data chunkSize n Hview Hsize)
    as (chunks' & rest' & -> & Hcut').
  by destruct (chunking_unique n _ chunks _ chunks' rest rest'
                 (eq_sym Hdata) Hcut Hcut') as [-> ->].
Qed.

(** X3. The chunks depend on the stream of bytes only, not on how it is
    cut into units: two valid sources, given to either re-chunker, whose
    units concatenate to the same bytes yield chunks with the same bytes,
    when a [Uint8Array] of [chunkSize] bytes can be allocated or both runs
    end normally.  (A run that ends on a failed allocation has yielded the
    chunks that lie within its first units, which depends on the
    cut: [cut_matters_without_carry_buffer].) *)
Theorem chunks_depend_on_bytes_only iterable iterable' chunkSize parts parts' n
    (run run' : gen carry_state) :
  Forall is_view parts → Forall is_view parts' → is_chunkSize chunkSize n →
  sync_source iterable parts ∧ run = chunkFrom zero limit iterable chunkSize
  ∨ async_source iterable parts ∧ run = chunkFromAsync zero limit iterable chunkSize →
  sync_source iterable' parts' ∧ run' = chunkFrom zero limit iterable' chunkSize
  ∨ async_source iterable' parts'
    ∧ run' = chunkFromAsync zero limit iterable' chunkSize →
  n ≤ limit ∨ is_Some (maybe inr run.2) ∧ is_Some (maybe inr run'.2) →
  mjoin (toUint8Array <$> parts) = mjoin (toUint8Array <$> parts') →
  collect parts run = collect parts' run'.
Proof.
  intros Hviews Hviews' Hsize Hrun Hrun' Hends Hsame.
  destruct (valid_run_chunks iterable chunkSize parts n run Hviews Hsize Hrun)
    as (chunks & rest & -> & Hcut); [tauto|].
  destruct (valid_run_chunks iterable' chunkSize parts' n run' Hviews' Hsize
              Hrun') as (chunks' & rest' & -> & Hcut'); [tauto|].
  by destruct (chunking_unique n _ chunks _ chunks' rest rest'
                 Hsame Hcut Hcut') as [-> ->].
Qed.

(** ** Further properties of the re-chunkers *)

Lemma gen_bind_assoc {X Y Z} (m : gen X) (f : X → gen Y) (g : Y → gen Z) :
  (m ≫= f) ≫= g = m ≫= (λ x, f x ≫= g).
Proof.
  destruct m as [evs [e|x]]; [done|]. cbn [mbind gen_bind].
  destruct (f x) as [evs1 [e|y]]; [done|]. cbn [mbind gen_bind].
  destruct (g y) as [evs2 res]. by rewrite <- app_assoc.
Qed.

Lemma gen_bind_ret {X Y} (x : X) (f : X → gen Y) : mret x ≫= f = f x.
Proof. cbn. by destruct (f x). Qed.

Lemma process_parts_app chunkSize xs ys : ∀ i st,
  process_parts zero limit chunkSize i (xs ++ ys) st
  = process_parts zero limit chunkSize i xs st
      ≫= process_parts zero limit chunkSize (i + length xs) ys.
Proof.
  induction xs as [|x xs IH]; intros i st.
  - cbn [app process_parts length]. by rewrite gen_bind_ret, Nat.add_0_r.
  - cbn [app process_parts length]. rewrite gen_bind_assoc.
    destruct (process_part zero limit chunkSize i x st) as [evs [e|st1]]; [done|].
    cbn [mbind gen_bind]. rewrite IH.
    by replace (S i + length xs) with (i + S (length xs)) by lia.
Qed.

Lemma run_bytes_post chunkSize all_units carry units post : ∀ pre p,
  0 < chunkSize → length p < chunkSize → all_units = pre ++ units ++ post →
  let run := run_summary chunkSize (length pre) p units in
  chunking chunkSize (p ++ mjoin units) (bytes_of all_units carry run.1) run.2.
Proof.
  induction units as [|b units IH]; intros pre p Hcs Hp Hall.
  { simpl. rewrite app_nil_r. by repeat split. }
  assert (all_units !! length pre = Some b) as Hb
    by (subst; apply list_lookup_middle; done).
  destruct (part_bytes chunkSize (length pre) p b all_units carry Hcs Hp Hb)
    as (Hjoin1 & Hfull1 & Hp1).
  destruct (IH (pre ++ [b]) (part_summary chunkSize (length pre) p b).2
              Hcs Hp1) as (Hjoin2 & Hfull2 & Hp2).
  { by rewrite <- app_assoc. }
  rewrite length_app, Nat.add_1_r in Hjoin2, Hfull2, Hp2.
  cbn [run_summary fst snd]. rewrite bytes_of_app.
  split; [|split; [by apply Forall_app|done]].
  rewrite join_app, <- app_assoc, Hjoin2, app_assoc, Hjoin1. simpl.
  by rewrite <- app_assoc.
Qed.

Lemma chunking_take_drop n (l : list A) chunks r :
  chunking n l chunks r →
  mjoin chunks = take (length l / n * n) l ∧ r = drop (length l / n * n) l.
Proof.
  intros Hcut. destruct (chunking_total n l chunks r Hcut) as [-> _].
  destruct Hcut as (<- & Hfull & _).
  rewrite <- (length_join_full n chunks Hfull).
  by rewrite take_app_length, drop_app_length.
Qed.

(** X4. The generator withholds nothing: once the loop of [chunkFrom]
    (or of [chunkFromAsync]) has pulled items holding [S] bytes in all, it
    has yielded exactly [S / chunkSize] chunks, which hold the first
    bytes of the stream in order; the [S mod chunkSize] bytes left are the
    first [carryLength] bytes of the carry buffer, which, once allocated,
    has [chunkSize] bytes. *)
Theorem state_after_pulling chunkSize parts evs st :
  0 < chunkSize →
  process_parts zero limit chunkSize 0 parts initial = (evs, inr st)
  ∨ async_process_parts zero limit chunkSize 0 parts initial = (evs, inr st) →
  let units := toUint8Array <$> parts in
  let stream := mjoin units in
  let full := length stream / chunkSize * chunkSize in
  length (yields evs) = length stream / chunkSize
  ∧ mjoin (bytes_of units [] evs) = take full stream
  ∧ carryLength st = length stream mod chunkSize
  ∧ take (carryLength st) (default [] (carryBuffer st)) = drop full stream
  ∧ (∀ carry, carryBuffer st = Some carry → length carry = chunkSize).
Proof.
  intros Hcs Hrun units stream full.
  assert (process_parts zero limit chunkSize 0 parts initial = (evs, inr st))
    as Hsync by (by destruct Hrun as [?|Hrun];
                   [|rewrite async_process_parts_eq in Hrun]).
  clear Hrun.
  destruct (process_parts_normal_end chunkSize parts evs st Hcs Hsync)
    as (Hviews & -> & Hst).
  pose proof (run_bytes_post chunkSize units [] units [] [] []
                Hcs ltac:(simpl; lia) ltac:(by rewrite app_nil_r)) as Hcut.
  cbn [length app] in Hcut. fold stream in Hcut.
  destruct (chunking_total _ _ _ _ Hcut) as [Hdiv Hmod].
  destruct (chunking_take_drop _ _ _ _ Hcut) as [Htake Hdrop].
  destruct Hst as (Hlen & _ & Hbuf).
  split; [by unfold bytes_of in Hdiv; rewrite length_fmap in Hdiv|].
  split; [done|]. rewrite Hlen. split; [by rewrite Hmod|]. split.
  - unfold full. rewrite <- Hdrop.
    destruct (carryBuffer st); [tauto|by rewrite Hbuf].
  - intros carry Hcarry. rewrite Hcarry in Hbuf. tauto.
Qed.

(** X6. An item that is not a view aborts the run that reaches it:
    when a [Uint8Array] of [chunkSize] bytes can be allocated, or the
    views before the item hold whole chunks each, [chunkFrom] and
    [chunkFromAsync] throw the per-item [TypeError] on that item, having
    yielded what the loop yields on the views before it, that is the full
    chunks of their bytes; the bytes pending in the carry buffer are not
    yielded, and the items after the bad one are not looked at. *)
Theorem bad_item_aborts iterable chunkSize n views bad rest
    (run : gen carry_state) :
  Forall is_view views → ¬ is_view bad → is_chunkSize chunkSize n →
  n ≤ limit ∨ Forall (aligned n) views →
  sync_source iterable (views ++ bad :: rest)
  ∧ run = chunkFrom zero limit iterable chunkSize
  ∨ async_source iterable (views ++ bad :: rest)
    ∧ run = chunkFromAsync zero limit iterable chunkSize →
  let stream := mjoin (toUint8Array <$> views) in
  run = ((process_parts zero limit n 0 views initial).1, inl (TypeError msg_part))
  ∧ ∃ pending,
      chunking n stream (collect (views ++ bad :: rest) run) pending.
Proof.
  intros Hviews Hbad Hsize Hreached Hrun stream.
  destruct (is_chunkSize_valid _ _ Hsize) as [Hvalid Hn].
  assert (0 < n) as Hpos by (destruct Hsize as (? & ? & ? & ? & ?); done).
  assert (run = process_parts zero limit n 0 (views ++ bad :: rest) initial ≫= flush)
    as ->.
  { destruct Hrun as [[Hsrc ->]|[Hsrc ->]].
    - by rewrite (chunkFrom_source_accepted _ _ _ Hsrc), Hvalid, Hn.
    - by rewrite (chunkFromAsync_source_accepted _ _ _ Hsrc), Hvalid, Hn. }
  assert (∃ evs st, process_parts zero limit n 0 views initial = (evs, inr st))
    as (evs & st & Hloop).
  { destruct Hreached as [Hlim|Haligned].
    - destruct (process_parts_summary n views 0 initial [] Hpos Hlim Hviews
                  (carry_holds_initial n Hpos)) as (st & Hsummary & _).
      eauto.
    - destruct (process_parts_aligned n views 0 initial Hpos eq_refl Hviews
                  Haligned) as (evs & Hloop & _).
      eauto. }
  destruct (process_parts_normal_end n views evs st Hpos Hloop)
    as (_ & Hevs & _).
  rewrite process_parts_app, Hloop. cbn [mbind gen_bind process_parts].
  rewrite process_part_not_view by done. cbn [mbind gen_bind fst].
  rewrite app_nil_r. split; [done|].
  eexists. unfold collect, final_carry. cbn [fst snd].
  rewrite fmap_app, Hevs.
  apply (run_bytes_post n _ [] (toUint8Array <$> views)
           (toUint8Array <$> bad :: rest) [] []); [done|simpl; lia|done].
Qed.

(** X7. Units whose lengths are multiples of [chunkSize] are never
    copied: either re-chunker yields only windows on the input units,
    copies no byte, and ends without having allocated a carry buffer. *)
Theorem aligned_units_are_not_copied iterable chunkSize parts n
    (run : gen carry_state) :
  Forall is_view parts → is_chunkSize chunkSize n →
  sync_source iterable parts ∧ run = chunkFrom zero limit iterable chunkSize
  ∨ async_source iterable parts ∧ run = chunkFromAsync zero limit iterable chunkSize →
  Forall (λ v, length (toUint8Array v) mod n = 0) parts →
  run.2 = inr initial
  ∧ copied run.1 = []
  ∧ Forall is_input_slice (yields run.1).
Proof.
  intros Hviews Hsize Hrun Haligned.
  destruct (is_chunkSize_valid _ _ Hsize) as [Hvalid Hn].
  assert (0 < n) as Hpos by (destruct Hsize as (? & ? & ? & ? & ?); done).
  assert (run = process_parts zero limit n 0 parts initial ≫= flush) as ->.
  { destruct Hrun as [[Hsrc ->]|[Hsrc ->]].
    - by rewrite (chunkFrom_source_accepted _ _ _ Hsrc), Hvalid, Hn.
    - by rewrite (chunkFromAsync_source_accepted _ _ _ Hsrc), Hvalid, Hn. }
  destruct (process_parts_aligned n parts 0 initial Hpos eq_refl Hviews Haligned)
    as (evs & -> & Hevs).
  cbn. rewrite app_nil_r. split; [done|]. clear -Hevs.
  induction Hevs as [|ev evs (j & s & ->) _ [IH1 IH2]]; [done|].
  split; [exact IH1|]. constructor; [by exists j, s|exact IH2].
Qed.

(** X8. The work is linear: in a run of either re-chunker over valid
    units the bytes copied, counted with the second copy out of the carry
    buffer, number at most twice the input bytes not yielded through
    direct slices, whatever the number of units; and when a [Uint8Array]
    of [chunkSize] bytes can be allocated every input byte is either
    copied out of its unit or yielded through a direct slice. *)
Theorem copy_volume iterable chunkSize parts n (run : gen carry_state) :
  Forall is_view parts → is_chunkSize chunkSize n →
  sync_source iterable parts ∧ run = chunkFrom zero limit iterable chunkSize
  ∨ async_source iterable parts ∧ run = chunkFromAsync zero limit iterable chunkSize →
  let units := toUint8Array <$> parts in
  length (copied_from_input run.1) + length (sliced units run.1)
  ≤ length (mjoin units)
  ∧ length (copied run.1) + 2 * length (sliced units run.1)
    ≤ 2 * length (mjoin units)
  ∧ (n ≤ limit →
     length (copied_from_input run.1) + length (sliced units run.1)
     = length (mjoin units)).
Proof.
  intros Hviews Hsize Hrun units.
  assert (0 < n) as Hpos by (destruct Hsize as (? & ? & ? & ? & ?); done).
  destruct (run_copies n units units [] []) as (Hin & Hcarry & Hsub & Hall);
    [done|simpl; lia|done|].
  cbn [length] in Hin, Hcarry, Hsub, Hall.
  apply Permutation_length in Hin, Hall. rewrite length_app in Hin, Hall.
  apply sublist_length in Hsub. apply (f_equal length) in Hcarry.
  rewrite length_app in Hcarry. simpl in Hcarry.
  destruct (run_shape iterable chunkSize parts n run Hviews Hsize Hrun)
    as [[_ (st & -> & _)]|(Hbig & _ & ->)]; fold units; cbn [fst].
  - destruct (copies_last_chunk units (run_summary n 0 [] units).2)
      as (Hl1 & Hl2 & Hl3 & Hl4).
    rewrite copied_app, copied_from_input_app, sliced_app, Hl1, Hl2, Hl4,
      !app_nil_r.
    lia.
  - destruct (starved_prefix n units 0 Hpos) as (later & Heq & _).
    destruct (slice_events_copy_nothing _ (starved_slices n units 0))
      as (-> & -> & _).
    rewrite Heq, sliced_app, length_app in Hin. simpl. lia.
Qed.

(** X10. The pull model is the only difference: [chunkFromAsync] on an
    async iterable does what [chunkFrom] does on an array of the same
    items, whatever the items and the chunk size: the same events and the
    same end. *)
Theorem async_iterable_as_array (items : list (value A)) chunkSize :
  chunkFromAsync zero limit (VAsyncIterable items) chunkSize
  = chunkFrom zero limit (VIterable items) chunkSize.
Proof.
  unfold chunkFromAsync, chunkFrom. cbn.
  destruct (invalid_chunkSize chunkSize); [done|].
  by rewrite async_process_parts_eq.
Qed.

(** X13. A stream shorter than [chunkSize] comes out as one chunk: when
    the units hold fewer than [chunkSize] bytes in all, and at least one,
    and a [Uint8Array] of [chunkSize] bytes can be allocated, either
    re-chunker yields a single chunk, a window on the carry buffer holding
    all the bytes. *)
Theorem short_stream_is_one_chunk iterable chunkSize parts n
    (run : gen carry_state) :
  Forall is_view parts → is_chunkSize chunkSize n → n ≤ limit →
  sync_source iterable parts ∧ run = chunkFrom zero limit iterable chunkSize
  ∨ async_source iterable parts ∧ run = chunkFromAsync zero limit iterable chunkSize →
  let stream := mjoin (toUint8Array <$> parts) in
  0 < length stream < n →
  yields run.1 = [CarrySlice (Span 0 (length stream))]
  ∧ collect parts run = [stream].
Proof.
  intros Hviews Hsize Hlim Hrun stream Hshort.
  assert (0 < n) as Hpos by (destruct Hsize as (? & ? & ? & ? & ?); done).
  destruct (run_shape iterable chunkSize parts n run Hviews Hsize Hrun)
    as [[_ (st & -> & Hst)]|(Hbig & _ & _)]; [|lia].
  rewrite (collect_run _ n _ _ _ Hst). cbn [fst]. rewrite yields_app.
  pose proof (run_bytes_post n (toUint8Array <$> parts)
                (default [] (carryBuffer st)) (toUint8Array <$> parts) [] [] []
                Hpos ltac:(simpl; lia) ltac:(by rewrite app_nil_r)) as Hcut.
  cbn [length app] in Hcut. fold stream in Hcut.
  destruct (chunking_total _ _ _ _ Hcut) as [Hdiv _].
  rewrite Nat.div_small in Hdiv by lia.
  destruct Hcut as (Hjoin & _ & _).
  set (summary := run_summary n 0 [] (toUint8Array <$> parts)) in *.
  symmetry in Hdiv. apply nil_length_inv in Hdiv as Hnil.
  rewrite Hnil in Hjoin |- *. simpl in Hjoin. rewrite Hjoin.
  assert (yields summary.1 = []) as ->.
  { apply nil_length_inv. unfold bytes_of in Hdiv.
    by rewrite length_fmap in Hdiv. }
  destruct stream; [simpl in Hshort; lia|done].
Qed.

Lemma merged_app (evs1 evs2 : list event) :
  merged (evs1 ++ evs2) = merged evs1 ++ merged evs2.
Proof. apply omap_app. Qed.

Lemma merged_slices chunkSize i offset n :
  merged (slices chunkSize i offset n) = [].
Proof.
  unfold merged, slices. induction (seq 0 n) as [|m ms IH]; [done|].
  by csimpl.
Qed.

Lemma merged_slice_events (evs : list event) :
  Forall slice_event evs → merged evs = [].
Proof.
  induction 1 as [|ev evs (j & s & ->) _ IH]; [done|]. exact IH.
Qed.

Lemma merged_save i r : merged (save i r) = [].
Proof. by destruct r. Qed.

Lemma part_merged chunkSize i p b :
  length p < chunkSize →
  let part := part_summary chunkSize i p b in
  length (merged part.1) ≤ 1
  ∧ Forall (λ c, length c = chunkSize) (merged part.1).
Proof.
  intros Hp. cbn zeta.
  destruct (decide (b = [])) as [->|Hne].
  { rewrite part_summary_nil. split; [simpl; lia|constructor]. }
  destruct (decide (p = [])) as [->|Hpne].
  - rewrite part_summary_direct by done. cbn [fst].
    rewrite merged_app, merged_slices, merged_save.
    split; [simpl; lia|constructor].
  - destruct (Nat.le_gt_cases (chunkSize - length p) (length b)) as [Hle|Hgt].
    + rewrite part_summary_merge by done. cbn [fst].
      rewrite !merged_app, merged_slices, merged_save.
      split; [simpl; lia|]. repeat constructor.
      rewrite length_app, length_take. lia.
    + rewrite part_summary_accumulate by done.
      split; [simpl; lia|constructor].
Qed.

Lemma run_merged chunkSize units : ∀ i p,
  0 < chunkSize → length p < chunkSize →
  let run := run_summary chunkSize i p units in
  length (merged run.1) ≤ length units
  ∧ Forall (λ c, length c = chunkSize) (merged run.1).
Proof.
  induction units as [|b units IH]; intros i p Hcs Hp; [done|].
  destruct (part_merged chunkSize i p b Hp) as [Hcount Hfull].
  assert (length (part_summary chunkSize i p b).2 < chunkSize) as Hp1.
  { pose proof (length_yields_part chunkSize i p b Hcs Hp) as Hlen.
    destruct (part_bytes chunkSize i p b (<[i:=b]> (replicate (S i) [])) []
                Hcs Hp) as (_ & _ & ?); [|done].
    apply list_lookup_insert_eq. rewrite length_replicate. lia. }
  destruct (IH (S i) _ Hcs Hp1) as [Hcount' Hfull'].
  cbn [run_summary fst]. rewrite merged_app, length_app.
  split; [simpl; lia|by apply Forall_app].
Qed.

(** X14. Fresh arrays are few: a valid run of either re-chunker yields
    at most one merged chunk per item pulled, each of exactly [chunkSize]
    bytes; every other chunk is a window on an input unit or on the carry
    buffer. *)
Theorem merged_chunks_bound iterable chunkSize parts n (run : gen carry_state) :
  Forall is_view parts → is_chunkSize chunkSize n →
  sync_source iterable parts ∧ run = chunkFrom zero limit iterable chunkSize
  ∨ async_source iterable parts ∧ run = chunkFromAsync zero limit iterable chunkSize →
  length (merged run.1) ≤ length parts
  ∧ Forall (λ c, length c = n) (merged run.1).
Proof.
  intros Hviews Hsize Hrun.
  assert (0 < n) as Hpos by (destruct Hsize as (? & ? & ? & ? & ?); done).
  destruct (run_shape iterable chunkSize parts n run Hviews Hsize Hrun)
    as [[_ (st & -> & _)]|(_ & _ & ->)].
  2: { cbn [fst].
       rewrite merged_slice_events by apply starved_slices.
       split; [simpl; lia|constructor]. }
  destruct (run_merged n (toUint8Array <$> parts) 0 [] Hpos ltac:(simpl; lia))
    as [Hcount Hfull].
  cbn [fst]. rewrite merged_app.
  assert (merged (last_chunk (run_summary n 0 [] (toUint8Array <$> parts)).2)
          = []) as -> by (by destruct (run_summary _ _ _ _).2).
  rewrite app_nil_r. by rewrite length_fmap in Hcount.
Qed.

(** X15. A single view given as the source, where an array of views is
    expected: a typed array is iterable, so it passes the source-type
    check of both re-chunkers and its elements, which are numbers, are
    pulled as items; with a valid chunk size the run throws the per-item
    [TypeError] on the first element, and ends normally without a chunk
    when the array is empty.  A [DataView] is not iterable and is refused
    by the source-type check. *)
Theorem view_as_source k (bytes : list A) chunkSize n :
  is_chunkSize chunkSize n →
  let outcome : gen carry_state :=
    match k with
    | TypedArray [] => ([], inr initial)
    | TypedArray (_ :: _) => ([], inl (TypeError msg_part))
    | DataView => ([], inl (TypeError msg_iterable))
    end in
  chunkFrom zero limit (VView k bytes) chunkSize = outcome
  ∧ chunkFromAsync zero limit (VView k bytes) chunkSize
    = match k with
      | DataView => ([], inl (TypeError msg_async_iterable))
      | _ => outcome
      end.
Proof.
  intros [Hvalid _]%is_chunkSize_valid.
  unfold chunkFrom, chunkFromAsync.
  destruct k as [[|x elements]|]; cbn; by rewrite ?Hvalid.
Qed.

Lemma starved_cut n all_units rest : ∀ pulled pre (u : list A),
  0 < n → all_units = pulled ++ pre ++ u :: rest →
  Forall (λ b, length b mod n = 0) pre → length u mod n ≠ 0 →
  let run := starved_summary n (length pulled) (pre ++ u :: rest) in
  run.2 = false
  ∧ mjoin (bytes_of all_units [] run.1)
    = mjoin pre ++ take (length u / n * n) u.
Proof.
  intros pulled pre. revert pulled.
  induction pre as [|b pre IH]; intros pulled u Hpos Hall Haligned Hrem.
  - cbn [app starved_summary mjoin list_join].
    rewrite (proj2 (Nat.eqb_neq _ _) Hrem). cbn [fst snd]. split; [done|].
    rewrite (bytes_of_slices _ _ _ _ _ _ u)
      by (subst; by apply list_lookup_middle).
    by rewrite join_windows, drop_0.
  - apply Forall_cons in Haligned as [Hmod Haligned].
    cbn [app starved_summary mjoin list_join]. rewrite Hmod.
    cbn [Nat.eqb fst snd].
    destruct (IH (pulled ++ [b]) u Hpos) as [Hcut Hbytes]; try done.
    { by rewrite <- app_assoc. }
    rewrite length_app, Nat.add_1_r in Hcut, Hbytes.
    split; [done|]. rewrite bytes_of_app, join_app, Hbytes, <- app_assoc.
    f_equal.
    rewrite (bytes_of_slices _ _ _ _ _ _ b)
      by (subst; by apply list_lookup_middle).
    rewrite join_windows, drop_0. apply take_ge.
    pose proof (Nat.div_mod_eq (length b) n). lia.
Qed.

(** X16. A chunk size that cannot be allocated: when the first view that
    leaves a remainder is reached, either re-chunker throws the
    [RangeError] of the allocation of the carry buffer.  Until then it
    has copied nothing and has yielded, through direct slices, full
    chunks only: the bytes of the units before that view, which hold
    whole chunks each, and the whole chunks at the start of that view.
    The remainder and the units that follow are not yielded. *)
Theorem allocation_failure iterable chunkSize n pre u rest
    (run : gen carry_state) :
  Forall is_view (pre ++ u :: rest) → is_chunkSize chunkSize n →
  limit < n → Forall (aligned n) pre → ¬ aligned n u →
  sync_source iterable (pre ++ u :: rest)
  ∧ run = chunkFrom zero limit iterable chunkSize
  ∨ async_source iterable (pre ++ u :: rest)
    ∧ run = chunkFromAsync zero limit iterable chunkSize →
  run.2 = inl RangeError
  ∧ copied run.1 = []
  ∧ Forall is_input_slice (yields run.1)
  ∧ Forall (λ c, length c = n) (collect (pre ++ u :: rest) run)
  ∧ mjoin (collect (pre ++ u :: rest) run)
    = mjoin (toUint8Array <$> pre)
        ++ take (length (toUint8Array u) / n * n) (toUint8Array u).
Proof.
  intros Hviews Hsize Hbig Haligned Hrem Hrun.
  assert (0 < n) as Hpos by (destruct Hsize as (? & ? & ? & ? & ?); done).
  assert (toUint8Array <$> pre ++ u :: rest
          = (toUint8Array <$> pre) ++ toUint8Array u :: (toUint8Array <$> rest))
    as Hunits by (by rewrite fmap_app).
  destruct (starved_cut n (toUint8Array <$> pre ++ u :: rest)
              (toUint8Array <$> rest) [] (toUint8Array <$> pre)
              (toUint8Array u) Hpos Hunits) as [Hcut Hbytes]; [|done|].
  { by apply Forall_fmap. }
  cbn [length] in Hcut, Hbytes. rewrite <- Hunits in Hcut, Hbytes.
  destruct (run_shape iterable chunkSize _ n run Hviews Hsize Hrun)
    as [[Hdone _]|(_ & _ & ->)].
  { destruct (Hdone Hbig) as [Hall _]. congruence. }
  pose proof (starved_slices n (toUint8Array <$> pre ++ u :: rest) 0)
    as Hslices.
  destruct (slice_events_copy_nothing _ Hslices) as (Hcopied & _).
  destruct (starved_chunks n (pre ++ u :: rest) Hpos) as [Hfull _].
  split; [done|]. split; [done|]. split; [|split; [done|exact Hbytes]].
  cbn [fst]. clear -Hslices.
  induction Hslices as [|ev evs (j & s & ->) _ IH]; [constructor|].
  constructor; [by exists j, s|exact IH].
Qed.
End Lemmas.

(** ** Runs do not depend on the bytes *)

Section Relabel.
Context {A B : Type} (f : A → B).

Lemma slices_relabel chunkSize i offset n :
  event_map f <$> slices (A:=A) chunkSize i offset n
  = slices chunkSize i offset n.
Proof. unfold slices. rewrite <- list_fmap_compose. by apply list_fmap_ext. Qed.

Lemma save_relabel i (r : list A) :
  event_map f <$> save i r = save i (f <$> r).
Proof. by destruct r. Qed.

Lemma part_summary_relabel chunkSize i (p b : list A) :
  part_summary chunkSize i (f <$> p) (f <$> b)
  = (event_map f <$> (part_summary chunkSize i p b).1,
     f <$> (part_summary chunkSize i p b).2).
Proof.
  destruct (decide (b = [])) as [->|Hb]; [done|].
  assert (f <$> b ≠ []) as Hb' by (by intros ?%fmap_nil_inv).
  destruct (decide (p = [])) as [->|Hp].
  - rewrite fmap_nil, !part_summary_direct by done. cbn [fst snd].
    by rewrite length_fmap, fmap_app, slices_relabel, save_relabel, fmap_drop.
  - assert (f <$> p ≠ []) as Hp' by (by intros ?%fmap_nil_inv).
    destruct (Nat.le_gt_cases (chunkSize - length p) (length b)) as [Hle|Hgt].
    + rewrite !part_summary_merge by (by rewrite ?length_fmap).
      cbn [fst snd]. rewrite !length_fmap.
      rewrite !fmap_app, slices_relabel, save_relabel, !fmap_drop.
      cbn [fmap list_fmap event_map chunk_ref_map].
      change (list_fmap A B f) with (fmap (M:=list) f).
      by rewrite !fmap_app, !fmap_take.
    + rewrite !part_summary_accumulate by (by rewrite ?length_fmap).
      cbn [fst snd fmap list_fmap event_map].
      change (list_fmap A B f) with (fmap (M:=list) f).
      by rewrite fmap_app.
Qed.

Lemma run_summary_relabel chunkSize (units : list (list A)) :
  ∀ i (p : list A),
  run_summary chunkSize i (f <$> p) (fmap (M:=list) f <$> units)
  = (event_map f <$> (run_summary chunkSize i p units).1,
     f <$> (run_summary chunkSize i p units).2).
Proof.
  induction units as [|b units IH]; intros i p; [done|].
  cbn [run_summary fmap list_fmap].
  change (list_fmap A B f b) with (f <$> b).
  change (list_fmap (list A) (list B) (fmap f) units) with (fmap f <$> units).
  rewrite part_summary_relabel. cbn [fst snd]. rewrite IH. cbn [fst snd].
  by rewrite fmap_app.
Qed.

Lemma starved_summary_relabel chunkSize (units : list (list A)) : ∀ i,
  starved_summary chunkSize i (fmap (M:=list) f <$> units)
  = (event_map f <$> (starved_summary chunkSize i units).1,
     (starved_summary chunkSize i units).2).
Proof.
  induction units as [|b units IH]; intros i; [done|].
  cbn [starved_summary fmap list_fmap].
  change (list_fmap A B f b) with (f <$> b).
  change (list_fmap (list A) (list B) (fmap f) units) with (fmap f <$> units).
  rewrite length_fmap. destruct (_ =? _).
  - rewrite IH. cbn [fst snd]. by rewrite fmap_app, slices_relabel.
  - cbn [fst snd]. by rewrite slices_relabel.
Qed.

(** X11. Two valid sources whose units hold the same bytes up to [f] give the
    same run up to [f], for [chunkFrom] and for [chunkFromAsync]. *)
Lemma relabelled_run (zeroA : A) (zeroB : B) (limit : nat)
    iterable iterable' parts parts' chunkSize chunkSize' n :
  Forall is_view parts → Forall is_view parts' →
  toUint8Array <$> parts' = fmap f <$> (toUint8Array <$> parts) →
  is_chunkSize chunkSize n → is_chunkSize chunkSize' n →
  (sync_source iterable parts → sync_source iterable' parts' →
   (chunkFrom zeroB limit iterable' chunkSize').1
   = event_map f <$> (chunkFrom zeroA limit iterable chunkSize).1)
  ∧ (async_source iterable parts → async_source iterable' parts' →
     (chunkFromAsync zeroB limit iterable' chunkSize').1
     = event_map f <$> (chunkFromAsync zeroA limit iterable chunkSize).1).
Proof.
  intros Hviews Hviews' Hsame Hsize Hsize'.
  assert (∀ (run : gen (A:=A) (carry_state (A:=A)))
            (run' : gen (A:=B) (carry_state (A:=B))),
    sync_source iterable parts ∧ run = chunkFrom zeroA limit iterable chunkSize
    ∨ async_source iterable parts
      ∧ run = chunkFromAsync zeroA limit iterable chunkSize →
    sync_source iterable' parts'
    ∧ run' = chunkFrom zeroB limit iterable' chunkSize'
    ∨ async_source iterable' parts'
      ∧ run' = chunkFromAsync zeroB limit iterable' chunkSize' →
    run'.1 = event_map f <$> run.1) as Hruns.
  { intros run run' Hrun Hrun'.
    pose proof (starved_summary_relabel n (toUint8Array <$> parts) 0)
      as Hstarved.
    destruct (run_shape zeroA limit iterable chunkSize parts n run
                Hviews Hsize Hrun)
      as [[Hdone (st & -> & _)]|(Hbig & Hcut & ->)];
      destruct (run_shape zeroB limit iterable' chunkSize' parts' n run'
                  Hviews' Hsize' Hrun')
        as [[Hdone' (st' & -> & _)]|(Hbig' & Hcut' & ->)];
      cbn [fst]; rewrite Hsame in *.
    - rewrite (run_summary_relabel n _ 0 []). cbn [fst snd].
      rewrite fmap_app. f_equal.
      by destruct ((run_summary n 0 [] (toUint8Array <$> parts)).2);
        [|cbn; rewrite length_fmap].
    - rewrite Hstarved in Hcut'. cbn [snd] in Hcut'.
      destruct (Hdone Hbig') as [Hall _]. congruence.
    - destruct (Hdone' Hbig) as [Hall _]. rewrite Hstarved in Hall.
      cbn [snd] in Hall. congruence.
    - by rewrite Hstarved. }
  split; intros Hsrc Hsrc'; apply Hruns; auto.
Qed.
End Relabel.

(** ** Runs on concrete input *)

Lemma is_chunkSize_num (n : nat) :
  0 < n → (Z.of_nat n ≤ MAX_SAFE_INTEGER)%Z →
  is_chunkSize (num (Z.of_nat n)) n.
Proof.
  intros Hpos Hmax. exists (inject_Z (Z.of_nat n)).
  split; [done|]. split; [reflexivity|]. by split.
Qed.

Lemma is_chunkSize_Z (z : Z) :
  (0 < z ≤ MAX_SAFE_INTEGER)%Z → is_chunkSize (num z) (Z.to_nat z).
Proof.
  intros Hz. exists (inject_Z z). split; [done|].
  rewrite Z2Nat.id by lia. split; [reflexivity|]. split; lia.
Qed.

Example scenario_two_buffers :
  chunk_lengths [zeros 1000; zeros 2000] 500 = replicate 6 500.
Proof. vm_compute. reflexivity. Qed.

Example scenario_accumulate :
  chunk_lengths [zeros 300; zeros 300; zeros 300] 500 = [500; 400].
Proof. vm_compute. reflexivity. Qed.

Example scenario_mixed :
  chunk_lengths [zeros 100; zeros 800; zeros 150] 500 = [500; 500; 50].
Proof. vm_compute. reflexivity. Qed.

Example scenario_empty : chunk_lengths [] 500 = [].
Proof. vm_compute. reflexivity. Qed.

(** The invalid chunk sizes of the tests: 0, -1, 1.5, [NaN], [Infinity]
    and a string, after the source has been accepted. *)
Example invalid_chunk_sizes :
  Forall (λ chunkSize,
            chunk (zeros 100) chunkSize = ([], Some (TypeError msg_chunkSize))
            ∧ chunkFrom x00 example_limit (VIterable [zeros 100]) chunkSize
              = ([], inl (TypeError msg_chunkSize))
            ∧ chunkFromAsync x00 example_limit (VAsyncIterable [zeros 100]) chunkSize
              = ([], inl (TypeError msg_chunkSize)))
    [num 0; num (-1); VNumber (Finite (Qmake 3 2)); VNumber NaN;
     VNumber PosInfinity; VNumber NegInfinity;
     num (MAX_SAFE_INTEGER + 1); VString "invalid"].
Proof. repeat constructor. Qed.

Example largest_chunk_size_accepted :
  invalid_chunkSize (num MAX_SAFE_INTEGER) = false.
Proof. reflexivity. Qed.

Example single_buffer :
  (chunk (zeros 2000) (num 655)).1
  = [Span 0 655; Span 655 655; Span 1310 655; Span 1965 35].
Proof. vm_compute. reflexivity. Qed.

(** ** The theorems at concrete inputs *)

Lemma two_units_views : Forall is_view two_units.
Proof. by repeat constructor. Qed.

Lemma two_units_source : sync_source (VIterable two_units) two_units.
Proof. done. Qed.

Lemma two_units_async_source : async_source (VIterable two_units) two_units.
Proof. done. Qed.

Lemma chunkSize_two : is_chunkSize (num 2) 2.
Proof. apply (is_chunkSize_num 2); [lia|done]. Qed.

Lemma example_limit_two : 2 ≤ example_limit.
Proof. unfold example_limit. lia. Qed.

Lemma chunks_concat_to_input_witness :
  Forall is_view two_units ∧ is_chunkSize (num 2) 2
  ∧ sync_source (VIterable two_units) two_units
  ∧ async_source (VIterable two_units) two_units
  ∧ 2 ≤ example_limit
  ∧ mjoin (collect two_units
             (chunkFrom x00 example_limit (VIterable two_units) (num 2)))
    = mjoin (toUint8Array <$> two_units)
  ∧ mjoin (collect two_units
             (chunkFromAsync x00 example_limit (VIterable two_units) (num 2)))
    = mjoin (toUint8Array <$> two_units).
Proof.
  destruct (chunks_concat_to_input x00 example_limit (VIterable two_units)
              (num 2) two_units 2 two_units_views chunkSize_two)
    as [Hsync Hasync].
  split; [exact two_units_views|]. split; [exact chunkSize_two|].
  split; [exact two_units_source|]. split; [exact two_units_async_source|].
  split; [exact example_limit_two|]. split.
  - exact (proj2 (proj1 (Hsync two_units_source) example_limit_two)).
  - exact (proj2 (proj1 (Hasync two_units_async_source) example_limit_two)).
Defined.

Lemma chunk_size_invariant_witness :
  sync_source (VIterable two_units) two_units ∧ Forall is_view two_units
  ∧ is_chunkSize (num 2) 2
  ∧ let out := collect two_units
                 (chunkFrom x00 example_limit (VIterable two_units) (num 2)) in
    let total := length (mjoin (toUint8Array <$> two_units)) in
    (∀ k c, out !! k = Some c →
       1 ≤ length c ≤ 2 ∧ (S k < length out → length c = 2))
    ∧ (total mod 2 = 0 → Forall (λ c, length c = 2) out)
    ∧ (total = 0 → out = [])
    ∧ length out = S (total / 2).
Proof.
  split; [exact two_units_source|]. split; [exact two_units_views|].
  split; [exact chunkSize_two|].
  destruct (chunk_size_invariant x00 example_limit (VIterable two_units) (num 2)
              two_units 2 two_units_source two_units_views chunkSize_two)
    as (Hlengths & Hfull & Hnone & Hcount).
  split; [exact Hlengths|]. split; [exact Hfull|]. split; [exact Hnone|].
  apply (proj2 (Hcount example_limit_two)). vm_compute. lia.
Defined.

Lemma rechunk_idempotent_witness :
  let fed := [Uint8Array [x01; x02]; Uint8Array [x03; x04]; Uint8Array [x05]]%byte in
  sync_source (VIterable two_units) two_units ∧ Forall is_view two_units
  ∧ is_chunkSize (num 2) 2
  ∧ sync_source (VIterable fed) fed ∧ Forall is_view fed
  ∧ toUint8Array <$> fed
    = collect two_units (chunkFrom x00 example_limit (VIterable two_units) (num 2))
  ∧ collect fed (chunkFrom x00 example_limit (VIterable fed) (num 2))
    = collect two_units (chunkFrom x00 example_limit (VIterable two_units) (num 2)).
Proof.
  intros fed.
  assert (Forall is_view fed) as Hfed by (by repeat constructor).
  assert (toUint8Array <$> fed
          = collect two_units (chunkFrom x00 example_limit (VIterable two_units) (num 2)))
    as Hsame by (vm_compute; reflexivity).
  split; [exact two_units_source|]. split; [exact two_units_views|].
  split; [exact chunkSize_two|]. split; [done|]. split; [exact Hfed|].
  split; [exact Hsame|].
  exact (rechunk_idempotent x00 example_limit (VIterable two_units) (num 2) two_units 2
           (VIterable fed) fed two_units_source two_units_views chunkSize_two
           (conj eq_refl eq_refl) Hfed Hsame).
Defined.

Lemma chunk_slices_witness :
  let data := Uint8Array [x01; x02; x03; x04; x05]%byte in
  is_view data ∧ is_chunkSize (num 2) 2
  ∧ ∃ out, chunk data (num 2) = (out, None)
      ∧ (∀ k, k < length out ↔ k * 2 < 5)
      ∧ (∀ k, k * 2 < 5 →
           out !! k = Some (Span (k * 2) ((k * 2 + 2) `min` 5 - k * 2)))
      ∧ (5 = 0 → out = []).
Proof.
  intros data. split; [done|]. split; [exact chunkSize_two|].
  exact (chunk_slices data (num 2) 2 eq_refl chunkSize_two).
Defined.

Lemma carry_write_in_bounds_witness :
  let carry := [x01; x02; x00; x00; x00]%byte in
  let st := CarryState (Some carry) 2 in
  0 < 5
  ∧ process_parts x00 example_limit 5 0 [Uint8Array [x01; x02]%byte] initial
    = ([Copy (Input 0) CarryBuffer [x01; x02]%byte], inr st)
  ∧ [x03]%byte ≠ [] ∧ 0 < carryLength st
  ∧ length [x03]%byte < 5 - carryLength st
  ∧ typed_set CarryBuffer (Input 1) carry [x03]%byte 2
    = ([Copy (Input 1) CarryBuffer [x03]%byte],
       inr [x01; x02; x03; x00; x00]%byte).
Proof.
  intros carry st.
  assert (process_parts x00 example_limit 5 0 [Uint8Array [x01; x02]%byte] initial
          = ([Copy (Input 0) CarryBuffer [x01; x02]%byte], inr st)) as Hrun
    by (vm_compute; reflexivity).
  assert (0 < 5) as Hcs by lia.
  assert ([x03]%byte ≠ []) as Hne by discriminate.
  assert (0 < carryLength st) as Hpending by (simpl; lia).
  assert (length [x03]%byte < 5 - carryLength st) as Hshort by (simpl; lia).
  destruct (carry_write_in_bounds x00 example_limit 5 _ _ st 1 (TypedArray [])
              [x03]%byte
              Hcs (or_introl Hrun) Hne Hpending Hshort)
    as (carry' & Hcarry & _ & _ & Hset & _).
  injection Hcarry as <-.
  repeat (split; [assumption|]). exact Hset.
Defined.

Lemma string_source_witness :
  "ab" ≠ EmptyString ∧ positive_safe_integer (num 3)
  ∧ chunkFrom x00 example_limit (VString "ab") (num 3) = ([], inl (TypeError msg_iterable))
  ∧ chunkFromAsync x00 example_limit (VString "ab") (num 3) = ([], inl (TypeError msg_part)).
Proof.
  assert ("ab" ≠ EmptyString) as Hne by discriminate.
  assert (positive_safe_integer (num 3)) as Hsize
    by (exists 3; apply (is_chunkSize_num 3); [lia|done]).
  destruct (string_source x00 example_limit "ab" (num 3))
    as (Hsync & _ & Hasync).
  split; [exact Hne|]. split; [exact Hsize|]. split; [exact Hsync|].
  exact (Hasync Hne Hsize).
Defined.


Lemma invalid_argument_conditions_witness :
  let parts : list (value byte) := [Uint8Array [x01]%byte; VString "bad"] in
  ¬ is_view (A:=byte) VNull
  ∧ (∀ parts, ¬ sync_source (A:=byte) VNull parts)
  ∧ chunk (A:=byte) VNull (num (-1)) = ([], Some (TypeError msg_data))
  ∧ chunkFrom x00 example_limit VNull (num (-1))
    = ([], inl (TypeError msg_iterable))
  ∧ ¬ positive_safe_integer (num (-1))
  ∧ chunkFrom x00 example_limit (VIterable two_units) (num (-1))
    = ([], inl (TypeError msg_chunkSize))
  ∧ sync_source (VIterable parts) parts
  ∧ ¬ allocation_fails example_limit 2 parts ∧ ¬ Forall is_view parts
  ∧ (chunkFrom x00 example_limit (VIterable parts) (num 2)).2
    = inl (TypeError msg_part)
  ∧ allocation_fails example_limit (Z.to_nat MAX_SAFE_INTEGER) parts
  ∧ (chunkFrom x00 example_limit (VIterable parts) (num MAX_SAFE_INTEGER)).2
    = inl RangeError.
Proof.
  intros parts.
  destruct (invalid_argument_conditions x00 example_limit)
    as (Hchunk & Hsync & _ & Hrejected).
  assert (¬ is_view (A:=byte) VNull) as Hnull by discriminate.
  assert (∀ parts, ¬ sync_source (A:=byte) VNull parts) as Hsrc
    by (intros ? [? _]; discriminate).
  assert (¬ positive_safe_integer (num (-1))) as Hneg.
  { apply Hrejected. do 3 right. eexists. split; [reflexivity|].
    left. unfold Qle. simpl. lia. }
  assert (sync_source (VIterable parts) parts) as Hparts by (by split).
  assert (¬ allocation_fails example_limit 2 parts) as Hfits
    by (intros [Hbig _]; unfold example_limit in Hbig; lia).
  assert (¬ Forall is_view parts) as Hbad.
  { intros Hviews. apply Forall_cons in Hviews as [_ Hviews].
    by apply Forall_cons in Hviews as [? _]. }
  assert (is_chunkSize (num MAX_SAFE_INTEGER) (Z.to_nat MAX_SAFE_INTEGER))
    as Hmax by (by apply is_chunkSize_Z).
  assert (allocation_fails example_limit (Z.to_nat MAX_SAFE_INTEGER) parts)
    as Hfails.
  { split; [unfold example_limit, MAX_SAFE_INTEGER; lia|].
    exists [], (Uint8Array [x01]%byte), [VString "bad"].
    split; [done|]. split; [done|]. split; [done|].
    unfold aligned. cbn [Uint8Array toUint8Array length].
    rewrite Nat.mod_small; unfold MAX_SAFE_INTEGER; lia. }
  split; [exact Hnull|]. split; [exact Hsrc|].
  split; [exact (proj1 (Hchunk VNull (num (-1))) Hnull)|].
  split; [exact (proj1 (Hsync VNull (num (-1))) Hsrc)|].
  split; [exact Hneg|].
  split; [exact (proj1 (proj2 (Hsync (VIterable two_units) (num (-1))) two_units
                          two_units_source) Hneg)|].
  split; [exact Hparts|]. split; [exact Hfits|]. split; [exact Hbad|].
  split.
  - exact (proj1 (proj2 (proj2 (proj2 (Hsync (VIterable parts) (num 2)) parts
                                  Hparts) 2 chunkSize_two)) Hfits Hbad).
  - split; [exact Hfails|].
    exact (proj1 (proj2 (proj2 (Hsync (VIterable parts) (num MAX_SAFE_INTEGER))
                           parts Hparts) _ Hmax) Hfails).
Defined.

Lemma copies_per_byte_witness :
  let run := chunkFrom x00 example_limit (VIterable two_units) (num 2) in
  Forall is_view two_units ∧ is_chunkSize (num 2) 2
  ∧ NoDup (mjoin (toUint8Array <$> two_units))
  ∧ NoDup (copied_from_input run.1)
  ∧ NoDup (copied_from_carry run.1)
  ∧ copied run.1 ≡ₚ copied_from_input run.1 ++ copied_from_carry run.1
  ∧ copied_from_carry run.1 ⊆ copied_from_input run.1
  ∧ (∀ x, x ∈ sliced (toUint8Array <$> two_units) run.1 → x ∉ copied run.1).
Proof.
  intros run.
  assert (NoDup (mjoin (toUint8Array <$> two_units))) as Hdistinct
    by (apply (bool_decide_unpack _); vm_compute; reflexivity).
  split; [exact two_units_views|]. split; [exact chunkSize_two|].
  split; [exact Hdistinct|].
  exact (copies_per_byte x00 example_limit (VIterable two_units) (num 2)
           two_units 2 run
           two_units_views chunkSize_two Hdistinct
           (or_introl (conj two_units_source eq_refl))).
Defined.

Lemma zero_copy_chunks_witness :
  let run := chunkFrom x00 example_limit (VIterable two_units) (num 2) in
  let units := toUint8Array <$> two_units in
  let b := [x01; x02; x03]%byte in
  ∃ c, yields run.1 !! 0 = Some c ∧ units !! 0 = Some b
    ∧ length (chunk_bytes units (final_carry run) c) = 2
    ∧ unit_start units 0 ≤ 0 * 2 ∧ 0 * 2 + 2 ≤ unit_start units 0 + length b
    ∧ c = InputSlice 0 (Span 0 2)
    ∧ ∀ carry, chunk_bytes (<[0:=<[1:=xff]> b]> units) carry c !! 1 = Some xff.
Proof.
  intros run units b. exists (InputSlice 0 (Span 0 2)).
  assert (yields run.1 !! 0 = Some (InputSlice 0 (Span 0 2))) as Hk
    by (vm_compute; reflexivity).
  assert (units !! 0 = Some b) as Hb by reflexivity.
  assert (length (chunk_bytes units (final_carry run) (InputSlice 0 (Span 0 2)))
          = 2) as Hfull by (vm_compute; reflexivity).
  assert (unit_start units 0 ≤ 0 * 2) as Hstart by (vm_compute; lia).
  assert (0 * 2 + 2 ≤ unit_start units 0 + length b) as Hend
    by (vm_compute; lia).
  destruct (proj2 (zero_copy_chunks x00 example_limit) (VIterable two_units) (num 2)
              two_units 2 run 0 _ two_units_views chunkSize_two
              (or_introl (conj two_units_source eq_refl)) Hk) as [Hwindow _].
  destruct (Hwindow 0 b Hb Hfull Hstart Hend) as [Hc Hseen].
  do 5 (split; [assumption|]). split; [exact Hc|].
  intros carry. apply (Hseen carry 1 xff). vm_compute. lia.
Defined.

(** ** Inputs on which the specification, as stated, fails *)

(** C1 as stated fails: with the largest safe integer as the chunk size,
    a single unit of three bytes makes [chunkFrom] allocate a carry buffer
    of that size (line 74).  No engine allocates it: the run ends with a
    [RangeError] before any chunk is yielded, and the three bytes are
    lost.  The same holds for [chunkFromAsync], and for every limit below
    that chunk size. *)
Lemma chunk_size_beyond_allocation :
  let parts := [Uint8Array [x01; x02; x03]%byte] in
  let run :=
    chunkFrom x00 example_limit (VIterable parts) (num MAX_SAFE_INTEGER) in
  Forall is_view parts ∧ sync_source (VIterable parts) parts
  ∧ positive_safe_integer (num MAX_SAFE_INTEGER)
  ∧ run = ([], inl RangeError)
  ∧ mjoin (collect parts run) = []
  ∧ mjoin (toUint8Array <$> parts) = [x01; x02; x03]%byte
  ∧ ∀ limit, limit < Z.to_nat MAX_SAFE_INTEGER →
      chunkFrom x00 limit (VIterable parts) (num MAX_SAFE_INTEGER)
      = ([], inl RangeError)
      ∧ chunkFromAsync x00 limit (VIterable parts) (num MAX_SAFE_INTEGER)
        = ([], inl RangeError).
Proof.
  intros parts run.
  assert (is_chunkSize (num MAX_SAFE_INTEGER) (Z.to_nat MAX_SAFE_INTEGER))
    as Hsize by (by apply is_chunkSize_Z).
  assert (0 < length [x01; x02; x03]%byte < Z.to_nat MAX_SAFE_INTEGER)
    as Hshort by (cbn [length]; unfold MAX_SAFE_INTEGER; lia).
  assert (∀ limit, limit < Z.to_nat MAX_SAFE_INTEGER →
    chunkFrom x00 limit (VIterable parts) (num MAX_SAFE_INTEGER)
    = ([], inl RangeError)
    ∧ chunkFromAsync x00 limit (VIterable parts) (num MAX_SAFE_INTEGER)
      = ([], inl RangeError)) as Hall.
  { intros limit Hbig. split.
    - exact (first_unit_starved x00 limit (VIterable parts)
               (num MAX_SAFE_INTEGER) _ _ _ [] _ Hsize Hbig Hshort
               (or_introl (conj (conj eq_refl eq_refl) eq_refl))).
    - exact (first_unit_starved x00 limit (VIterable parts)
               (num MAX_SAFE_INTEGER) _ _ _ [] _ Hsize Hbig Hshort
               (or_intror (conj eq_refl eq_refl))). }
  assert (run = ([], inl RangeError)) as Hrun.
  { apply Hall. unfold example_limit, MAX_SAFE_INTEGER. lia. }
  split; [by repeat constructor|]. split; [done|].
  split; [by eexists|]. split; [exact Hrun|].
  split; [by rewrite Hrun|]. split; [reflexivity|]. exact Hall.
Qed.

(** C3 as stated fails: with units [[1]] and [[2]] and a chunk size of 2,
    byte 1 is copied into the carry buffer and then again, from the carry
    buffer, into the merged chunk. *)
Lemma pending_byte_copied_twice :
  let parts := [Uint8Array [x01]; Uint8Array [x02]]%byte in
  let run := chunkFrom x00 example_limit (VIterable parts) (num 2) in
  NoDup (mjoin (toUint8Array <$> parts))
  ∧ run.1 = [Copy (Input 0) CarryBuffer [x01]; Copy CarryBuffer Out [x01];
             Copy (Input 1) Out [x02]; Yield (Owned [x01; x02])]%byte
  ∧ copied run.1 = [x01; x01; x02]%byte
  ∧ ¬ NoDup (copied run.1).
Proof.
  intros parts run.
  split; [apply (bool_decide_unpack _); vm_compute; reflexivity|].
  split; [vm_compute; reflexivity|]. split; [vm_compute; reflexivity|].
  apply (bool_decide_unpack _). vm_compute. reflexivity.
Qed.

(** C4 as stated fails: a single unit of three bytes with a chunk size of
    5 comes out as one chunk whose bytes all lie within that unit, yet
    the chunk is a window on the carry buffer: writing to the unit
    afterwards does not show through it. *)
Lemma final_chunk_is_a_copy :
  let parts := [Uint8Array [x01; x02; x03]]%byte in
  let units := toUint8Array <$> parts in
  let run := chunkFrom x00 example_limit (VIterable parts) (num 5) in
  let written := <[0:=<[0:=xff]> [x01; x02; x03]]> units in
  yields run.1 = [CarrySlice (Span 0 3)]
  ∧ unit_start units 0 ≤ 0 * 5
  ∧ 0 * 5 + 3 ≤ unit_start units 0 + 3
  ∧ written = [[xff; x02; x03]]
  ∧ collect parts run = [[x01; x02; x03]]
  ∧ chunk_bytes written (final_carry run) (CarrySlice (Span 0 3))
    = [x01; x02; x03].
Proof. vm_compute. repeat split; (lia || reflexivity). Qed.


(** An item that is a promise of a view: awaited by [for await], refused
    by [chunkFrom]. *)
Example promised_unit :
  let parts := [VPromise (Uint8Array [x01; x02]%byte)] in
  (chunkFrom x00 example_limit (VIterable parts) (num 3)).2 = inl (TypeError msg_part)
  ∧ yields (chunkFromAsync x00 example_limit (VIterable parts) (num 3)).1
    = [CarrySlice (Span 0 2)].
Proof. split; vm_compute; reflexivity. Qed.

(** C6 as stated fails: an array holding a string passes the source-type
    check of [chunkFrom], and with the valid chunk size 100 the run still
    throws (the per-item error); with the invalid chunk size -1 the error
    thrown is the chunk-size error, although the source is not a sequence
    of views.  And a source that is not a sequence of views need not end
    in a [TypeError] at all: with the largest safe integer as the chunk
    size, the view before the string ends the run with a [RangeError]. *)
Lemma item_error_is_a_third_condition :
  let iterable := VIterable [VString "not a buffer"] in
  let mixed : list (value byte) :=
    [Uint8Array [x01]%byte; VString "not a buffer"] in
  sync_source (A:=byte) iterable [VString "not a buffer"]
  ∧ is_chunkSize (num 100) 100
  ∧ chunkFrom x00 example_limit iterable (num 100)
    = ([], inl (TypeError msg_part))
  ∧ ¬ Forall (is_view (A:=byte)) [VString "not a buffer"]
  ∧ ¬ positive_safe_integer (num (-1))
  ∧ chunkFrom x00 example_limit iterable (num (-1))
    = ([], inl (TypeError msg_chunkSize))
  ∧ sync_source (VIterable mixed) mixed ∧ ¬ Forall is_view mixed
  ∧ positive_safe_integer (num MAX_SAFE_INTEGER)
  ∧ chunkFrom x00 example_limit (VIterable mixed) (num MAX_SAFE_INTEGER)
    = ([], inl RangeError).
Proof.
  intros iterable mixed. split; [done|].
  split; [apply (is_chunkSize_num 100); [lia|done]|].
  split; [vm_compute; reflexivity|].
  split; [by intros [? _]%Forall_cons|].
  split.
  { intros (n & q & [= <-] & Heq & Hpos & _).
    unfold Qeq in Heq. simpl in Heq. lia. }
  split; [vm_compute; reflexivity|]. split; [done|]. split.
  { intros Hviews. apply Forall_cons in Hviews as [_ Hviews].
    by apply Forall_cons in Hviews as [? _]. }
  assert (is_chunkSize (num MAX_SAFE_INTEGER) (Z.to_nat MAX_SAFE_INTEGER))
    as Hsize by (by apply is_chunkSize_Z).
  split; [by eexists|].
  apply (first_unit_starved x00 example_limit (VIterable mixed)
           (num MAX_SAFE_INTEGER) _ (TypedArray (byte_number <$> [x01]%byte))
           [x01]%byte [VString "not a buffer"] _ Hsize).
  - unfold example_limit, MAX_SAFE_INTEGER. lia.
  - cbn [length]. unfold MAX_SAFE_INTEGER. lia.
  - left. by split.
Qed.

(** ** The further properties at concrete inputs *)

Lemma chunk_roundtrip_witness :
  let data := Uint8Array [x01; x02; x03; x04; x05]%byte in
  is_view data ∧ is_chunkSize (num 2) 2
  ∧ mjoin (read_span (toUint8Array data) <$> (chunk data (num 2)).1)
    = toUint8Array data.
Proof.
  intros data. split; [done|]. split; [exact chunkSize_two|].
  exact (chunk_roundtrip data (num 2) 2 eq_refl chunkSize_two).
Defined.

Lemma rechunk_is_chunk_of_concat_witness :
  let data := Uint8Array [x01; x02; x03; x04; x05]%byte in
  let run := chunkFrom x00 example_limit (VIterable two_units) (num 2) in
  Forall is_view two_units ∧ is_chunkSize (num 2) 2 ∧ 2 ≤ example_limit
  ∧ sync_source (VIterable two_units) two_units
  ∧ is_view data ∧ toUint8Array data = mjoin (toUint8Array <$> two_units)
  ∧ collect two_units run
    = read_span (toUint8Array data) <$> (chunk data (num 2)).1.
Proof.
  intros data run.
  split; [exact two_units_views|]. split; [exact chunkSize_two|].
  split; [exact example_limit_two|].
  split; [exact two_units_source|]. split; [done|]. split; [reflexivity|].
  exact (rechunk_is_chunk_of_concat x00 example_limit (VIterable two_units)
           (num 2) two_units 2 run data two_units_views chunkSize_two
           example_limit_two
           (or_introl (conj two_units_source eq_refl)) eq_refl eq_refl).
Defined.

Lemma chunks_depend_on_bytes_only_witness :
  let other := [Uint8Array [x01]; Uint8Array []; Uint8Array [x02; x03; x04; x05]]%byte in
  let run := chunkFrom x00 example_limit (VIterable two_units) (num 2) in
  let run' := chunkFromAsync x00 example_limit (VAsyncIterable other) (num 2) in
  Forall is_view two_units ∧ Forall is_view other ∧ is_chunkSize (num 2) 2
  ∧ 2 ≤ example_limit
  ∧ mjoin (toUint8Array <$> two_units) = mjoin (toUint8Array <$> other)
  ∧ collect two_units run = collect other run'.
Proof.
  intros other run run'.
  assert (Forall is_view other) as Hother by (by repeat constructor).
  split; [exact two_units_views|]. split; [exact Hother|].
  split; [exact chunkSize_two|]. split; [exact example_limit_two|].
  split; [reflexivity|].
  exact (chunks_depend_on_bytes_only x00 example_limit (VIterable two_units)
           (VAsyncIterable other) (num 2) two_units other 2 run run'
           two_units_views Hother chunkSize_two
           (or_introl (conj two_units_source eq_refl))
           (or_intror (conj eq_refl eq_refl))
           (or_introl example_limit_two) eq_refl).
Defined.

Lemma state_after_pulling_witness :
  let st := CarryState (Some [x05; x00]%byte) 1 in
  let evs := [Yield (InputSlice 0 (Span 0 2));
              Copy (Input 0) CarryBuffer [x03]; Copy CarryBuffer Out [x03];
              Copy (Input 1) Out [x04]; Yield (Owned [x03; x04]);
              Copy (Input 1) CarryBuffer [x05]]%byte in
  0 < 2
  ∧ process_parts x00 example_limit 2 0 two_units initial = (evs, inr st)
  ∧ length (yields evs) = 5 / 2
  ∧ carryLength st = 5 mod 2
  ∧ take (carryLength st) (default [] (carryBuffer st)) = [x05]%byte.
Proof.
  intros st evs.
  assert (process_parts x00 example_limit 2 0 two_units initial = (evs, inr st)) as Hrun
    by (vm_compute; reflexivity).
  assert (0 < 2) as Hcs by lia.
  destruct (state_after_pulling x00 example_limit 2 two_units evs st Hcs
              (or_introl Hrun))
    as (Hcount & _ & Hlen & Hcarry & _).
  split; [exact Hcs|]. split; [exact Hrun|]. split; [exact Hcount|].
  split; [exact Hlen|]. exact Hcarry.
Defined.

Lemma bad_item_aborts_witness :
  let views := [Uint8Array [x01; x02; x03]%byte] in
  let bad : value byte := VString "not a buffer" in
  let rest := [Uint8Array [x04]%byte] in
  let run := chunkFrom x00 example_limit (VIterable (views ++ bad :: rest)) (num 2) in
  Forall is_view views ∧ ¬ is_view bad ∧ is_chunkSize (num 2) 2
  ∧ 2 ≤ example_limit
  ∧ sync_source (VIterable (views ++ bad :: rest)) (views ++ bad :: rest)
  ∧ run = ((process_parts x00 example_limit 2 0 views initial).1, inl (TypeError msg_part))
  ∧ ∃ pending,
      chunking 2 (mjoin (toUint8Array <$> views))
        (collect (views ++ bad :: rest) run) pending.
Proof.
  intros views bad rest run.
  assert (Forall is_view views) as Hviews by (by repeat constructor).
  assert (¬ is_view bad) as Hbad by discriminate.
  split; [exact Hviews|]. split; [exact Hbad|]. split; [exact chunkSize_two|].
  split; [exact example_limit_two|]. split; [done|].
  exact (bad_item_aborts x00 example_limit
           (VIterable (views ++ bad :: rest)) (num 2) 2
           views bad rest run Hviews Hbad chunkSize_two
           (or_introl example_limit_two)
           (or_introl (conj (conj eq_refl eq_refl) eq_refl))).
Defined.

Lemma aligned_units_are_not_copied_witness :
  let parts := [Uint8Array [x01; x02; x03; x04]; Uint8Array [];
                Uint8Array [x05; x06]]%byte in
  let run := chunkFrom x00 example_limit (VIterable parts) (num 2) in
  Forall is_view parts ∧ is_chunkSize (num 2) 2
  ∧ Forall (λ v, length (toUint8Array v) mod 2 = 0) parts
  ∧ run.2 = inr initial ∧ copied run.1 = []
  ∧ Forall is_input_slice (yields run.1).
Proof.
  intros parts run.
  assert (Forall is_view parts) as Hviews by (by repeat constructor).
  assert (Forall (λ v : value byte, length (toUint8Array v) mod 2 = 0) parts)
    as Haligned by (by repeat constructor).
  split; [exact Hviews|]. split; [exact chunkSize_two|].
  split; [exact Haligned|].
  exact (aligned_units_are_not_copied x00 example_limit (VIterable parts)
           (num 2) parts 2 run
           Hviews chunkSize_two (or_introl (conj (conj eq_refl eq_refl) eq_refl))
           Haligned).
Defined.

Lemma copy_volume_witness :
  let run := chunkFrom x00 example_limit (VIterable two_units) (num 2) in
  let units := toUint8Array <$> two_units in
  Forall is_view two_units ∧ is_chunkSize (num 2) 2 ∧ 2 ≤ example_limit
  ∧ length (copied run.1) + 2 * length (sliced units run.1)
    ≤ 2 * length (mjoin units)
  ∧ length (copied_from_input run.1) + length (sliced units run.1)
    = length (mjoin units).
Proof.
  intros run units.
  split; [exact two_units_views|]. split; [exact chunkSize_two|].
  split; [exact example_limit_two|].
  destruct (copy_volume x00 example_limit (VIterable two_units) (num 2)
              two_units 2 run two_units_views chunkSize_two
              (or_introl (conj two_units_source eq_refl)))
    as (_ & Hbound & Hall).
  split; [exact Hbound|]. exact (Hall example_limit_two).
Defined.

Lemma carry_slice_is_last_witness :
  let run := chunkFrom x00 example_limit (VIterable two_units) (num 2) in
  Forall is_view two_units ∧ is_chunkSize (num 2) 2
  ∧ run.1 !! 6 = Some (Yield (CarrySlice (Span 0 1)))
  ∧ 7 = length run.1.
Proof.
  intros run.
  assert (run.1 !! 6 = Some (Yield (CarrySlice (Span 0 1)))) as Hk
    by (vm_compute; reflexivity).
  split; [exact two_units_views|]. split; [exact chunkSize_two|].
  split; [exact Hk|].
  exact (carry_slice_is_last x00 example_limit (VIterable two_units) (num 2)
           two_units 2 run
           6 (Span 0 1) two_units_views chunkSize_two
           (or_introl (conj two_units_source eq_refl)) Hk).
Defined.

Lemma relabelled_run_witness :
  let labelled : list (value (nat * byte)) :=
    [VView DataView [(0, x01); (1, x02); (2, x03)];
     VView DataView [(3, x04); (4, x05)]]%byte in
  let two : value (nat * byte) := VNumber (Finite (inject_Z 2)) in
  Forall is_view labelled ∧ Forall is_view two_units
  ∧ toUint8Array <$> two_units = fmap snd <$> (toUint8Array <$> labelled)
  ∧ is_chunkSize two 2 ∧ is_chunkSize (num 2) 2
  ∧ (chunkFrom x00 example_limit (VIterable two_units) (num 2)).1
    = event_map snd <$> (chunkFrom (0, x00) example_limit (VIterable labelled) two).1.
Proof.
  intros labelled two.
  assert (Forall is_view labelled) as Hlabelled by (by repeat constructor).
  assert (toUint8Array <$> two_units = fmap snd <$> (toUint8Array <$> labelled))
    as Hsame by reflexivity.
  assert (is_chunkSize two 2) as Htwo.
  { exists (inject_Z 2). split; [done|]. split; [reflexivity|]. split; [lia|done]. }
  split; [exact Hlabelled|]. split; [exact two_units_views|].
  split; [exact Hsame|]. split; [exact Htwo|]. split; [exact chunkSize_two|].
  exact (proj1 (relabelled_run snd (0, x00) x00 example_limit (VIterable labelled)
                  (VIterable two_units) labelled two_units two (num 2) 2
                  Hlabelled two_units_views Hsame Htwo chunkSize_two)
           (conj eq_refl eq_refl) two_units_source).
Defined.

Lemma short_stream_is_one_chunk_witness :
  let run := chunkFrom x00 example_limit (VIterable two_units) (num 8) in
  let stream := mjoin (toUint8Array <$> two_units) in
  Forall is_view two_units ∧ is_chunkSize (num 8) 8 ∧ 8 ≤ example_limit
  ∧ 0 < length stream < 8
  ∧ yields run.1 = [CarrySlice (Span 0 (length stream))]
  ∧ collect two_units run = [stream].
Proof.
  intros run stream.
  assert (is_chunkSize (num 8) 8) as Hsize
    by (apply (is_chunkSize_num 8); [lia|done]).
  assert (0 < length stream < 8) as Hshort by (vm_compute; lia).
  assert (8 ≤ example_limit) as Hlim by (unfold example_limit; lia).
  split; [exact two_units_views|]. split; [exact Hsize|].
  split; [exact Hlim|]. split; [exact Hshort|].
  exact (short_stream_is_one_chunk x00 example_limit (VIterable two_units)
           (num 8) two_units 8 run two_units_views Hsize Hlim
           (or_introl (conj two_units_source eq_refl)) Hshort).
Defined.

Lemma merged_chunks_bound_witness :
  let run := chunkFrom x00 example_limit (VIterable two_units) (num 2) in
  Forall is_view two_units ∧ is_chunkSize (num 2) 2
  ∧ length (merged run.1) ≤ length two_units
  ∧ Forall (λ c, length c = 2) (merged run.1).
Proof.
  intros run.
  split; [exact two_units_views|]. split; [exact chunkSize_two|].
  exact (merged_chunks_bound x00 example_limit (VIterable two_units) (num 2)
           two_units 2 run
           two_units_views chunkSize_two
           (or_introl (conj two_units_source eq_refl))).
Defined.

Lemma view_as_source_witness :
  is_chunkSize (num 2) 2
  ∧ chunkFrom x00 example_limit (Uint8Array [x01; x02]%byte) (num 2)
    = ([], inl (TypeError msg_part))
  ∧ chunkFromAsync x00 example_limit (Uint8Array []) (num 2) = ([], inr initial).
Proof.
  split; [exact chunkSize_two|]. split.
  - exact (proj1 (view_as_source x00 example_limit _ [x01; x02]%byte (num 2) 2
                    chunkSize_two)).
  - exact (proj2 (view_as_source x00 example_limit (TypedArray []) [] (num 2) 2
                    chunkSize_two)).
Defined.

Lemma allocation_failure_witness :
  let pre := [Uint8Array [x01; x02]%byte] in
  let u := Uint8Array [x03; x04; x05]%byte in
  let rest := [Uint8Array [x06]%byte] in
  let run := chunkFrom x00 1 (VIterable (pre ++ u :: rest)) (num 2) in
  Forall is_view (pre ++ u :: rest) ∧ is_chunkSize (num 2) 2 ∧ 1 < 2
  ∧ Forall (aligned 2) pre ∧ ¬ aligned 2 u
  ∧ run.2 = inl RangeError
  ∧ copied run.1 = []
  ∧ mjoin (collect (pre ++ u :: rest) run) = [x01; x02; x03; x04]%byte.
Proof.
  intros pre u rest run.
  assert (Forall is_view (pre ++ u :: rest)) as Hviews
    by (by repeat constructor).
  assert (1 < 2) as Hbig by lia.
  assert (Forall (aligned 2) pre) as Haligned by (by repeat constructor).
  assert (¬ aligned 2 u) as Hrem by (vm_compute; lia).
  destruct (allocation_failure x00 1 (VIterable (pre ++ u :: rest)) (num 2) 2
              pre u rest run Hviews chunkSize_two Hbig Haligned Hrem
              (or_introl (conj (conj eq_refl eq_refl) eq_refl)))
    as (Hend & Hcopied & _ & _ & Hbytes).
  split; [exact Hviews|]. split; [exact chunkSize_two|]. split; [exact Hbig|].
  split; [exact Haligned|]. split; [exact Hrem|]. split; [exact Hend|].
  split; [exact Hcopied|]. exact Hbytes.
Defined.

(** Without a carry buffer the cut into units matters: on an engine that
    cannot allocate two bytes, a chunk size of 2 and the bytes 1, 2, 3,
    the source [[1, 2], [3]] yields the chunk [[1, 2]] before the
    [RangeError], and the source [[1], [2, 3]] yields nothing. *)
Example cut_matters_without_carry_buffer :
  let parts := [Uint8Array [x01; x02]; Uint8Array [x03]]%byte in
  let parts' := [Uint8Array [x01]; Uint8Array [x02; x03]]%byte in
  let run := chunkFrom x00 1 (VIterable parts) (num 2) in
  let run' := chunkFrom x00 1 (VIterable parts') (num 2) in
  mjoin (toUint8Array <$> parts) = mjoin (toUint8Array <$> parts')
  ∧ run = ([Yield (InputSlice 0 (Span 0 2))], inl RangeError)
  ∧ run' = ([], inl RangeError)
  ∧ collect parts run = [[x01; x02]]%byte
  ∧ collect parts' run' = [].
Proof. repeat split; vm_compute; reflexivity. Qed.
